(** * TSPBoltzmann: a Boltzmann-machine annealer for the travelling salesman

    A shallow embedding of [tsp.py]: the square boolean net ([class Net]),
    the completion of the distance table, the consensus (energy) functional,
    the annealing pass with its best-net bookkeeping, and the path
    validator and extractor of [class BoltzmannTsp].

    Modelling conventions.
    - Python exceptions are the [Raise] branch of [result].
    - [Net] objects are mutable and shared by reference, so the solver state
      carries an object [store] and the two fields [net] and [min_net] hold
      addresses into it.
    - The module-level random source is replaced by explicit draws: a coin
      per cell for the initial net, and per annealing iteration the integer
      returned by [random.randint] together with the outcome of
      [accept_change].
    - Temperatures are IEEE binary64 numbers, as Python floats are.
    - Penalty, bonus, distances and the consensus are exact integers: the
      model covers integer-valued data, on which the sums of the source are
      exact. *)

From Stdlib Require Import ZArith Lia Floats.
From stdpp Require Import gmap strings list fin_maps sorting.

Local Open Scope Z_scope.

(** ** Exceptions and results *)

Inductive exn : Set :=
  | KeyError
  | ValueError
  | IndexError
  | AssertionError
  | ZeroDivisionError.

Inductive result (A : Type) : Type :=
  | Ok (a : A)
  | Raise (e : exn).

Arguments Ok {A} a.
Arguments Raise {A} e.

Global Instance result_ret : MRet result := λ A a, Ok a.

Global Instance result_bind : MBind result := λ A B f m,
  match m with
  | Ok a => f a
  | Raise e => Raise e
  end.

(** [o ?! e]: the value of a subscript [o], raising [e] when it is absent. *)
Definition or_raise {A} (o : option A) (e : exn) : result A :=
  match o with
  | Some a => Ok a
  | None => Raise e
  end.

Infix "?!" := or_raise (at level 45, left associativity).

(** A Python [for] loop whose body may raise, threading an accumulator. *)
Fixpoint foldlM {A B} (f : A → B → result A) (a : A) (l : list B) : result A :=
  match l with
  | [] => Ok a
  | b :: l' => a' ← f a b; foldlM f a' l'
  end.

(** A list comprehension whose element expression may raise. *)
Fixpoint forM {A B} (f : A → result B) (l : list A) : result (list B) :=
  match l with
  | [] => Ok []
  | a :: l' => b ← f a; bs ← forM f l'; Ok (b :: bs)
  end.

Definition Zsum {A} (f : A → Z) (l : list A) : Z :=
  foldr (λ a acc, f a + acc) 0 l.

(** ** class Net *)

(** [dim] is [self.dim] and [cells] the nested list [self.net]; the labels
    and the header only serve the printed form. *)
Record Net : Set := mkNet {
  dim : nat;
  cells : list (list bool)
}.

(** A position [(row, column)], that is [(city, epoch)]. *)
Abbreviation cell := (nat * nat)%type.

(** [Net.__init__]: one coin per cell. *)
Definition Net_init (num_elements : nat) (coin : nat → nat → bool) : Net :=
  {| dim := num_elements;
     cells := (λ i, coin i <$> seq 0 num_elements) <$> seq 0 num_elements |}.

(** [Net.__getitem__]: [self.net[i][j]]. *)
Definition __getitem__ (g : Net) (pos : cell) : result bool :=
  row ← cells g !! pos.1 ?! IndexError;
  row !! pos.2 ?! IndexError.

(** The index pairs of the two nested [range] loops. *)
Definition range2 (r0 r1 c0 c1 : nat) : list cell :=
  i ← seq r0 (r1 - r0); j ← seq c0 (c1 - c0); [(i, j)].

(** [end if end else self.dim]: [None] and [0] both select the default. *)
Definition end_or (e : option nat) (d : nat) : nat :=
  match e with
  | Some (S k) => S k
  | _ => d
  end.

(** [Net.__iter__] and [Net.square_iter] are generators: each is the
    sequence of positions it visits, and [for_yield] is the [for] loop over
    one, which reads [self.net[i][j]] when the position is reached and hands
    [i, j, self.net[i][j]] to the body. *)
Definition __iter__ (g : Net) : list cell :=
  range2 0 (dim g) 0 (dim g).

Definition square_iter (g : Net) (start_row start_col : nat)
    (end_row end_col : option nat) : list cell :=
  range2 start_row (end_or end_row (dim g)) start_col (end_or end_col (dim g)).

Definition for_yield {A} (g : Net) (gen : list cell)
    (body : A → nat → nat → bool → result A) (a : A) : result A :=
  foldlM (λ acc p, x ← __getitem__ g p; body acc p.1 p.2 x) a gen.

(** [Net.flip]: [self.net[i][j] = not self.net[i][j]]. *)
Definition flip (g : Net) (i j : nat) : result Net :=
  row ← cells g !! i ?! IndexError;
  b ← row !! j ?! IndexError;
  Ok {| dim := dim g; cells := <[i := <[j := negb b]> row]> (cells g) |}.

(** [Net.row_iter]. *)
Definition row_iter (g : Net) : list (list bool) := cells g.

(** [Net.num_enabled]: [sum(x for _, _, x in self.__iter__() if x)]. *)
Definition num_enabled (g : Net) : result nat :=
  for_yield g (__iter__ g)
    (λ n _ _ x, Ok (if x then (n + Nat.b2n x)%nat else n)) 0%nat.

(** A net as [Net.__init__] builds it: [dim] rows of [dim] cells. *)
Definition square (g : Net) : Prop :=
  length (cells g) = dim g ∧ Forall (λ row, length row = dim g) (cells g).

(** ** class BoltzmannTsp *)

(** The solver object. [store] holds the [Net] objects; [net] and [min_net]
    are the addresses held by [self.net] and [self.min_net]. *)
Record BoltzmannTsp : Type := mkTsp {
  distances : gmap string (gmap string Z);
  cities : list string;
  num_cities : nat;
  index_city_map : gmap nat string;
  penalty : Z;
  bonus : Z;
  store : list Net;
  net : nat;
  min_net : nat;
  concensus : Z
}.

(** *** import_distances *)

(** The body of the two nested loops: when [city] is missing from the entry
    of [city_entry], copy [distances[city][city_entry]] into it. *)
Definition fill_entry (city city_entry : string)
    (d : gmap string (gmap string Z)) : result (gmap string (gmap string Z)) :=
  distance_entry ← d !! city_entry ?! KeyError;
  if bool_decide (distance_entry !! city = None)
     && bool_decide (city ≠ city_entry)
  then
    row ← d !! city ?! KeyError;
    v ← row !! city_entry ?! KeyError;
    Ok (<[city_entry := <[city := v]> distance_entry]> d)
  else Ok d.

(** The loops over [cities] (outer) and over [items] (inner), the key order
    of [self.distances.items()]; the loops change entries only, never the
    keys. *)
Definition fill_distances (cities items : list string)
    (d : gmap string (gmap string Z)) : result (gmap string (gmap string Z)) :=
  foldlM (λ d1 city, foldlM (λ d2 city_entry, fill_entry city city_entry d2) d1 items)
         d cities.

(** The keys of a dictionary in its iteration order. *)
Definition keys {V} (d : gmap string V) : list string := (map_to_list d).*1.

(** What [import_distances] leaves in the object: the completed table, the
    sorted cities, their number and the index-to-city dictionary. *)
Record imported : Type := mkImported {
  i_distances : gmap string (gmap string Z);
  i_cities : list string;
  i_num_cities : nat;
  i_index_city_map : gmap nat string
}.

Definition import_distances (raw : gmap string (gmap string Z)) : result imported :=
  let cs := merge_sort String.le (keys raw) in
  d ← fill_distances cs (keys raw) raw;
  Ok {| i_distances := d;
        i_cities := cs;
        i_num_cities := length cs;
        i_index_city_map := map_seq 0 cs |}.

(** *** lookup_weight and calculate_weight *)

Definition lookup_weight (s : BoltzmannTsp) (start_city end_city : nat) : result Z :=
  a ← index_city_map s !! start_city ?! KeyError;
  row ← distances s !! a ?! KeyError;
  b ← index_city_map s !! end_city ?! KeyError;
  row !! b ?! KeyError.

Definition calculate_weight (s : BoltzmannTsp)
    (start_city start_epoch end_city end_epoch : nat) : result Z :=
  if bool_decide (start_city = end_city) then
    Ok (if bool_decide (start_epoch ≠ end_epoch) then penalty s else 0)
  else if bool_decide (start_epoch = end_epoch) then
    Ok (penalty s)
  else if bool_decide (end_epoch = (start_epoch + 1)%nat) then
    lookup_weight s start_city end_city
  else Ok 0.

(** *** calculate_concensus *)

Definition b2z (b : bool) : Z := if b then 1 else 0.

(** The consensus of the net [g] under the parameters of [s]. The pair
    threaded through the loops is [(weight_term, bias_term)]. *)
Definition concensus_of (s : BoltzmannTsp) (g : Net) : result Z :=
  '(weight_term, bias_term) ←
    for_yield g (__iter__ g)
      (λ '(weight_term, bias_term) start_city start_epoch start_net_element,
         if start_net_element then
           w ← for_yield g (square_iter g 0 start_epoch None None)
                 (λ weight_term end_city end_epoch end_net_element,
                    weight ← calculate_weight s start_city start_epoch end_city end_epoch;
                    Ok (weight_term
                        + weight * b2z start_net_element * b2z end_net_element))
                 weight_term;
           Ok (w, bias_term + bonus s)
         else Ok (weight_term, bias_term))
      (0, 0);
  Ok (weight_term - bias_term).

Definition set_concensus (s : BoltzmannTsp) (c : Z) : BoltzmannTsp :=
  mkTsp (distances s) (cities s) (num_cities s) (index_city_map s)
        (penalty s) (bonus s) (store s) (net s) (min_net s) c.

Definition set_store (s : BoltzmannTsp) (h : list Net) : BoltzmannTsp :=
  mkTsp (distances s) (cities s) (num_cities s) (index_city_map s)
        (penalty s) (bonus s) h (net s) (min_net s) (concensus s).

Definition set_net (s : BoltzmannTsp) (a : nat) : BoltzmannTsp :=
  mkTsp (distances s) (cities s) (num_cities s) (index_city_map s)
        (penalty s) (bonus s) (store s) a (min_net s) (concensus s).

Definition set_min_net (s : BoltzmannTsp) (a : nat) : BoltzmannTsp :=
  mkTsp (distances s) (cities s) (num_cities s) (index_city_map s)
        (penalty s) (bonus s) (store s) (net s) a (concensus s).

(** The object an address refers to; a dangling address cannot arise. *)
Definition deref (s : BoltzmannTsp) (a : nat) : result Net :=
  store s !! a ?! IndexError.

(** [calculate_concensus]: recompute [self.concensus] from [self.net]. *)
Definition calculate_concensus (s : BoltzmannTsp) : result BoltzmannTsp :=
  g ← deref s (net s);
  c ← concensus_of s g;
  Ok (set_concensus s c).

(** *** __init__ *)

(** [BoltzmannTsp.__init__] on the parsed distances file [raw], with one
    coin per cell of the initial net. The fields [min_net] and [concensus]
    do not exist before they are assigned; the record holds placeholders
    for them until then. The last statement is [self.min_net = self.net]:
    both fields hold the same address. *)
Definition __init__ (penalty bonus : Z) (raw : gmap string (gmap string Z))
    (coin : nat → nat → bool) : result BoltzmannTsp :=
  imp ← import_distances raw;
  let s := {| distances := i_distances imp;
              cities := i_cities imp;
              num_cities := i_num_cities imp;
              index_city_map := i_index_city_map imp;
              penalty := penalty;
              bonus := bonus;
              store := [Net_init (i_num_cities imp) coin];
              net := 0%nat;
              min_net := 0%nat;
              concensus := 0 |} in
  s ← calculate_concensus s;
  Ok (set_min_net s (net s)).

(** *** The annealing pass *)

(** [self.net.flip(i, j)]: the object [self.net] refers to is updated in
    place, so every field holding its address sees the change. *)
Definition net_flip (s : BoltzmannTsp) (i j : nat) : result BoltzmannTsp :=
  g ← deref s (net s);
  g' ← flip g i j;
  Ok (set_store s (<[net s := g']> (store s))).

(** [self.min_net = deepcopy(self.net)]: a new object with the same cells. *)
Definition snapshot (s : BoltzmannTsp) : result BoltzmannTsp :=
  g ← deref s (net s);
  Ok (set_min_net (set_store s (store s ++ [g])) (length (store s))).

(** [pick_random_net_indices]: [divmod(random.randint(0, n*n - 1), n)], where
    [u] selects the integer drawn from the range; an empty range raises. *)
Definition pick_random_net_indices (s : BoltzmannTsp) (u : nat) : result (nat * nat) :=
  let n := num_cities s in
  if bool_decide ((n * n)%nat = 0%nat) then Raise ValueError
  else let r := (u mod (n * n))%nat in Ok ((r / n)%nat, (r mod n)%nat).

(** The random outcome of one iteration: the integer selector and whether
    [accept_change] returned true. *)
Definition draw := (nat * bool)%type.

(** [accept_change]: [random.random() <= 1. / (1. + math.exp(concensus_change/temp))],
    false when the exponential overflows. The outcome of the comparison is
    the draw [acc]; the quotient raises when the temperature is zero. *)
Definition accept_change (concensus_change : Z) (temp : float) (acc : bool)
    : result bool :=
  if PrimFloat.eqb temp 0 then Raise ZeroDivisionError else Ok acc.

(** One execution of the body of the [while] loop of [__find_optimal_path];
    the loop state is the object and the locals [temp] and [min_concensus]. *)
Definition anneal_body (decay_rate : float) (dr : draw)
    (st : BoltzmannTsp * float * Z) : result (BoltzmannTsp * float * Z) :=
  let '(s, temp, min_concensus) := st in
  '(city, epoch) ← pick_random_net_indices s dr.1;
  let pre_candidate := concensus s in
  s ← net_flip s city epoch;
  s ← calculate_concensus s;
  let delta_concensus := concensus s - pre_candidate in
  accepted ← accept_change delta_concensus temp dr.2;
  s ← (if negb accepted
       then net_flip (set_concensus s pre_candidate) city epoch
       else Ok s);
  let temp := (temp * decay_rate)%float in
  if bool_decide (concensus s < min_concensus) then
    s' ← snapshot s;
    Ok (s', temp, concensus s)
  else Ok (s, temp, min_concensus).

(** The [while temp >= min_temp] loop, one draw per iteration. [None] means
    the supplied draws ran out while the loop was still running; otherwise
    the result carries the number of iterations executed so far plus [n],
    and the draws left over. *)
Fixpoint anneal_loop (min_temp decay_rate : float) (draws : list draw)
    (st : BoltzmannTsp * float * Z) (n : nat)
    : option (result (BoltzmannTsp * float * nat * list draw)) :=
  if PrimFloat.leb min_temp st.1.2 then
    match draws with
    | [] => None
    | dr :: rest =>
        match anneal_body decay_rate dr st with
        | Raise e => Some (Raise e)
        | Ok st' => anneal_loop min_temp decay_rate rest st' (S n)
        end
    end
  else Some (Ok (st.1.1, st.1.2, n, draws)).

(** [__find_optimal_path]; it ends with [self.net = self.min_net]. *)
Definition __find_optimal_path (s : BoltzmannTsp) (temp min_temp decay_rate : float)
    (draws : list draw) : option (result (BoltzmannTsp * list draw)) :=
  match anneal_loop min_temp decay_rate draws (s, temp, concensus s) 0 with
  | None => None
  | Some (Raise e) => Some (Raise e)
  | Some (Ok (s', _, _, rest)) => Some (Ok (set_net s' (min_net s'), rest))
  end.

(** *** is_valid_path and determine_path *)

(** The count is taken on [self.net], the rows on [self.min_net]. *)
Definition is_valid_path (s : BoltzmannTsp) : result bool :=
  g ← deref s (net s);
  n ← num_enabled g;
  if bool_decide (n = num_cities s) then
    m ← deref s (min_net s);
    Ok (forallb (λ city, bool_decide (true ∈ city)) (row_iter m))
  else Ok false.

(** [city.index(True)]. *)
Fixpoint index_True (row : list bool) : option nat :=
  match row with
  | [] => None
  | b :: row' => if b then Some 0%nat else S <$> index_True row'
  end.

(** [{value: key for key, value in d.items()}]: a later item overwrites an
    earlier one with the same value. *)
Definition invert (d : gmap string nat) : gmap nat string :=
  foldl (λ acc kv, <[kv.2 := kv.1]> acc) ∅ (map_to_list d).

(** The first loop of [determine_path], which fills [city_epoch_dict]. *)
Definition city_epochs (s : BoltzmannTsp) (g : Net) : result (gmap string nat) :=
  foldlM (λ (acc : gmap string nat) (ic : nat * list bool),
            epoch ← index_True ic.2 ?! ValueError;
            name ← index_city_map s !! ic.1 ?! KeyError;
            Ok (<[name := epoch]> acc))
         ∅ (imap pair (row_iter g)).

Definition determine_path (s : BoltzmannTsp) : result (list string) :=
  g ← deref s (net s);
  city_epoch_dict ← city_epochs s g;
  let epoch_city_dict := invert city_epoch_dict in
  path ← forM (λ i, epoch_city_dict !! i ?! KeyError) (seq 0 (num_cities s));
  first ← path !! 0%nat ?! IndexError;
  Ok (path ++ [first]).

(** [calculate_path_length]. *)
Definition calculate_path_length (s : BoltzmannTsp) (path : list string) : result Z :=
  ds ← forM (λ i, a ← path !! i ?! IndexError;
                  row ← distances s !! a ?! KeyError;
                  b ← path !! S i ?! IndexError;
                  row !! b ?! KeyError)
            (seq 0 (length path - 1));
  Ok (Zsum id ds).

(** *** find_optimal_path and the command-line entry *)

(** The retry loop [while not self.is_valid_path() and count <= max_attempts]. *)
Fixpoint retry (s : BoltzmannTsp) (temp min_temp decay_rate : float)
    (draws : list draw) (count : nat) (attempts_left : nat)
    : option (result (BoltzmannTsp * nat)) :=
  match is_valid_path s with
  | Raise e => Some (Raise e)
  | Ok true => Some (Ok (s, count))
  | Ok false =>
      match attempts_left with
      | O => Some (Ok (s, count))
      | S k =>
          match __find_optimal_path s temp min_temp decay_rate draws with
          | None => None
          | Some (Raise e) => Some (Raise e)
          | Some (Ok (s', rest)) => retry s' temp min_temp decay_rate rest (S count) k
          end
      end
  end.

Definition find_optimal_path (s : BoltzmannTsp) (temp min_temp decay_rate : float)
    (max_attempts : nat) (draws : list draw) : option (result BoltzmannTsp) :=
  match __find_optimal_path s temp min_temp decay_rate draws with
  | None => None
  | Some (Raise e) => Some (Raise e)
  | Some (Ok (s', rest)) =>
      match retry s' temp min_temp decay_rate rest 1 max_attempts with
      | None => None
      | Some (Raise e) => Some (Raise e)
      | Some (Ok (s'', _)) => Some (Ok s'')
      end
  end.

(** The parsed command line. *)
Record args : Type := mkArgs {
  a_penalty : Z;
  a_bonus : Z;
  a_temp : float;
  a_mintemp : float;
  a_decay : float
}.

(** The script body: [assert args.bonus < args.penalty], then construction,
    search and path extraction. *)
Definition main (a : args) (raw : gmap string (gmap string Z))
    (coin : nat → nat → bool) (draws : list draw)
    : option (result (list string * Z)) :=
  if bool_decide (a_bonus a < a_penalty a) then
    match __init__ (a_penalty a) (a_bonus a) raw coin with
    | Raise e => Some (Raise e)
    | Ok tsp =>
        match find_optimal_path tsp (a_temp a) (a_mintemp a) (a_decay a) 10 draws with
        | None => None
        | Some (Raise e) => Some (Raise e)
        | Some (Ok tsp) =>
            Some (path ← determine_path tsp;
                  len ← calculate_path_length tsp path;
                  Ok (path, len))
        end
    end
  else Some (Raise AssertionError).

(** * Vocabulary of the statements *)

(** [d[a][b]], when present. *)
Definition entry (d : gmap string (gmap string Z)) (a b : string) : option Z :=
  d !! a ≫= (.!! b).

(** The table [d] relative to the input [raw]: same cities, every given
    distance kept, and every distance either given or the copy of the one
    given in the other direction. *)
Definition completes (raw d : gmap string (gmap string Z)) : Prop :=
  dom d = dom raw ∧
  (∀ a b v, entry raw a b = Some v → entry d a b = Some v) ∧
  (∀ a b v, entry d a b = Some v →
            entry raw a b = Some v ∨ (entry raw a b = None ∧ entry raw b a = Some v)).

(** The value of a cell, [false] off the net. *)
Definition on (g : Net) (p : cell) : bool :=
  default false (cells g !! p.1 ≫= (.!! p.2)).

(** The enabled cells, in row-major order. *)
Definition true_cells (g : Net) : list cell :=
  filter (λ p, on g p) (__iter__ g).

Definition is_ok {A} (r : result A) : bool :=
  match r with
  | Ok _ => true
  | Raise _ => false
  end.

(** Every two different cities have a distance: all lookups succeed. *)
Definition complete (s : BoltzmannTsp) : Prop :=
  forallb (λ i, forallb (λ j, bool_decide (i = j) || is_ok (lookup_weight s i j))
                        (seq 0 (num_cities s)))
          (seq 0 (num_cities s)) = true.

(** The weight between two cells as a number, [0] where the lookup fails. *)
Definition weight (s : BoltzmannTsp) (A B : cell) : Z :=
  match calculate_weight s A.1 A.2 B.1 B.2 with
  | Ok w => w
  | Raise _ => 0
  end.


(** The cities agree with the index dictionary, and no city repeats. *)
Definition consistent (s : BoltzmannTsp) : Prop :=
  num_cities s = length (cities s) ∧
  index_city_map s = map_seq 0 (cities s) ∧
  NoDup (cities s).

(** [self.net] refers to the square net [g] over the cities of [s]. *)
Definition holds (s : BoltzmannTsp) (g : Net) : Prop :=
  store s !! net s = Some g ∧ square g ∧ dim g = num_cities s.





(** The true columns of a row and the true rows of a column. *)
Definition row_ones (g : Net) (i : nat) : list nat :=
  filter (λ j, on g (i, j)) (seq 0 (dim g)).

Definition col_ones (g : Net) (j : nat) : list nat :=
  filter (λ i, on g (i, j)) (seq 0 (dim g)).

(** A permutation matrix: exactly one true cell in every row and exactly
    one in every column. *)
Definition permutation_matrix (g : Net) : Prop :=
  square g
  ∧ (∀ i, (i < dim g)%nat → length (row_ones g i) = 1%nat)
  ∧ (∀ j, (j < dim g)%nat → length (col_ones g j) = 1%nat).


(** Two solver states with the same cities, table and parameters. *)
Definition same_model (s s' : BoltzmannTsp) : Prop :=
  distances s' = distances s ∧ cities s' = cities s
  ∧ num_cities s' = num_cities s ∧ index_city_map s' = index_city_map s
  ∧ penalty s' = penalty s ∧ bonus s' = bonus s.

(** The invariant of a pass that starts with both fields on one net. *)
Definition pass_invariant (s0 s : BoltzmannTsp) (minc : Z) : Prop :=
  same_model s0 s ∧ net s = net s0
  ∧ (∃ g, holds s g)
  ∧ minc ≤ concensus s ∧ minc ≤ concensus s0
  ∧ (min_net s = net s0
     ∨ (min_net s ≠ net s0
        ∧ ∃ m, store s !! min_net s = Some m ∧ square m ∧ dim m = num_cities s0
               ∧ concensus_of s0 m = Ok minc ∧ minc < concensus s0)).

(** ** Example inputs *)

(** Two cities with one distance given in one direction. *)
Definition two_cities : gmap string (gmap string Z) :=
  {[ "A" := {[ "B" := 5 ]}; "B" := ∅ ]}%string.

(** Two cities and no distance at all. *)
Definition two_strangers : gmap string (gmap string Z) :=
  {[ "A" := ∅; "B" := ∅ ]}%string.

(** Two cities whose two directions disagree. *)
Definition one_way_street : gmap string (gmap string Z) :=
  {[ "A" := {[ "B" := 1 ]}; "B" := {[ "A" := 2 ]} ]}%string.

(** A single city. *)
Definition one_city : gmap string (gmap string Z) :=
  {[ "A" := ∅ ]}%string.

(** Coins for the initial net: every cell off, every cell on, and the
    first column on. *)
Definition all_off (i j : nat) : bool := false.
Definition all_on (i j : nat) : bool := true.
Definition first_column (i j : nat) : bool := bool_decide (j = 0%nat).

(** The coin that switches on the diagonal: city [i] at epoch [i]. *)
Definition diagonal (i j : nat) : bool := bool_decide (i = j).

(** The solver over [two_cities] as [__init__] leaves it, holding [g]. *)
Definition two_city_tsp (g : Net) : BoltzmannTsp :=
  {| distances := {[ "A" := {[ "B" := 5 ]}; "B" := {[ "A" := 5 ]} ]}%string;
     cities := ["A"; "B"]%string;
     num_cities := 2;
     index_city_map := map_seq 0 ["A"; "B"]%string;
     penalty := 3;
     bonus := 1;
     store := [g];
     net := 0%nat;
     min_net := 0%nat;
     concensus := 0 |}.

(** Both cities at epoch 0. *)
Definition same_epoch : Net := mkNet 2 [[true; false]; [true; false]].

(** City A at epoch 1, city B at epoch 0. *)
Definition swapped : Net := mkNet 2 [[false; true]; [true; false]].

(** City B at no epoch. *)
Definition b_missing : Net := mkNet 2 [[true; false]; [false; false]].

(** City A at both epochs, city B at none. *)
Definition a_twice : Net := mkNet 2 [[true; true]; [false; false]].

(** The net over no city at all. *)
Definition no_cells : Net := mkNet 0 [].

(** The solver over [one_city] as [__init__] leaves it with the cell on. *)
Definition one_city_tsp : BoltzmannTsp :=
  {| distances := one_city;
     cities := ["A"]%string;
     num_cities := 1;
     index_city_map := map_seq 0 ["A"]%string;
     penalty := 2;
     bonus := 1;
     store := [mkNet 1 [[true]]];
     net := 0%nat;
     min_net := 0%nat;
     concensus := -1 |}.

(** * Verification *)

(** ** Loops that may raise *)

Section foldlM_facts.
Context {A B : Type} (f : A → B → result A).

(** A loop invariant [P], and a per-element fact [Q] that, once the
    element has been processed, later iterations keep; [R] holds of every
    element of the list. *)
Lemma foldlM_invariant_on (R : B → Prop) (P : A → Prop) (Q : B → A → Prop) l a a' :
  Forall R l →
  (∀ a b a', R b → P a → f a b = Ok a' → P a' ∧ Q b a') →
  (∀ a b b' a', R b → R b' → P a → Q b a → f a b' = Ok a' → Q b a') →
  P a → foldlM f a l = Ok a' →
  P a' ∧ ∀ b, b ∈ l → Q b a'.
Proof.
  intros HR Hstep Hkeep. revert a.
  induction l as [|b l IH]; intros a HP Hrun; simpl in Hrun.
  - inversion Hrun; subst. split; [done|]. intros b Hb. by apply elem_of_nil in Hb.
  - apply Forall_cons in HR as [HRb HRl].
    destruct (f a b) as [a1|e] eqn:Hf; [|done]. simpl in Hrun.
    destruct (Hstep _ _ _ HRb HP Hf) as [HP1 HQ1].
    assert (Hgen : ∀ l a1 a', Forall R l → P a1 → Q b a1 →
                              foldlM f a1 l = Ok a' → Q b a').
    { clear -Hstep Hkeep HRb.
      induction l as [|c l IH]; intros a1 a' HRl HP1 HQ1 Hrun; simpl in Hrun.
      - by inversion Hrun; subst.
      - apply Forall_cons in HRl as [HRc HRl].
        destruct (f a1 c) as [a2|e] eqn:Hf; [|done]. simpl in Hrun.
        eapply (IH a2); [done| | |exact Hrun].
        + by eapply Hstep.
        + by eapply Hkeep. }
    destruct (IH HRl _ HP1 Hrun) as [HP' HQ']. split; [done|].
    intros c [->|Hc]%elem_of_cons; [|by apply HQ'].
    exact (Hgen _ _ _ HRl HP1 HQ1 Hrun).
Qed.

Lemma foldlM_invariant (P : A → Prop) (Q : B → A → Prop) l a a' :
  (∀ a b a', P a → f a b = Ok a' → P a' ∧ Q b a') →
  (∀ a b b' a', P a → Q b a → f a b' = Ok a' → Q b a') →
  P a → foldlM f a l = Ok a' →
  P a' ∧ ∀ b, b ∈ l → Q b a'.
Proof.
  intros Hstep Hkeep. apply (foldlM_invariant_on (λ _, True)); eauto.
  by apply Forall_forall.
Qed.

(** A loop whose body succeeds on every element succeeds. *)
Lemma foldlM_total l a :
  (∀ a b, b ∈ l → ∃ a', f a b = Ok a') → ∃ a', foldlM f a l = Ok a'.
Proof.
  revert a. induction l as [|b l IH]; intros a H; simpl; [eauto|].
  destruct (H a b) as [a1 ->]; [by left|]. simpl.
  apply IH. intros a2 b2 Hb2. apply H. by right.
Qed.

(** A loop raises [e] when its body raises [e] on some element whatever the
    accumulator, and raises nothing else on the others. *)
Lemma foldlM_raises (e : exn) l a b :
  b ∈ l → (∀ a, f a b = Raise e) →
  (∀ a b' e', b' ∈ l → f a b' = Raise e' → e' = e) →
  foldlM f a l = Raise e.
Proof.
  intros Hb Hfb Hothers. revert a.
  induction l as [|c l IH]; intros a; [by apply elem_of_nil in Hb|]. simpl.
  destruct (f a c) as [a1|e1] eqn:Hf; simpl.
  - apply elem_of_cons in Hb as [->|Hb]; [by rewrite Hfb in Hf|].
    apply IH; [done|]. intros a2 b2 e2 Hb2. apply Hothers. by right.
  - f_equal. eapply Hothers; [|exact Hf]. by left.
Qed.

(** A loop all of whose failures raise [e] can only raise [e]. *)
Lemma foldlM_raise_only (e : exn) l a e' :
  (∀ a b e', f a b = Raise e' → e' = e) →
  foldlM f a l = Raise e' → e' = e.
Proof.
  intros Hf. revert a. induction l as [|b l IH]; intros a Hrun; simpl in Hrun; [done|].
  destruct (f a b) as [a1|e1] eqn:E; simpl in Hrun.
  - by eapply IH.
  - inversion Hrun; subst. by eapply Hf.
Qed.
End foldlM_facts.

Lemma or_raise_Ok {A} (o : option A) e a : o ?! e = Ok a → o = Some a.
Proof. destruct o; simpl; congruence. Qed.

Lemma or_raise_Raise {A} (o : option A) e e' : o ?! e = Raise e' → e' = e.
Proof. destruct o; simpl; congruence. Qed.

(** ** The distance table *)

Lemma entry_insert d e c v row a b :
  d !! e = Some row →
  entry (<[e := <[c := v]> row]> d) a b
  = if decide (a = e ∧ b = c) then Some v else entry d a b.
Proof.
  intros Hrow. unfold entry.
  destruct (decide (a = e)) as [->|Hae].
  - rewrite lookup_insert_eq, Hrow. simpl.
    destruct (decide (b = c)) as [->|Hbc].
    + rewrite lookup_insert_eq. by rewrite decide_True.
    + rewrite lookup_insert_ne by done. rewrite decide_False; [done|]. by intros [_ ?].
  - rewrite lookup_insert_ne by done. rewrite decide_False; [done|]. by intros [? _].
Qed.

(** What one execution of the loop body does when it does not raise. *)
Lemma fill_entry_Ok city city_entry d d' :
  fill_entry city city_entry d = Ok d' →
  dom d' = dom d ∧ city_entry ∈ dom d ∧
  ((d' = d ∧ (city = city_entry ∨ is_Some (entry d city_entry city))) ∨
   (city ≠ city_entry ∧ entry d city_entry city = None ∧
    ∃ v, entry d city city_entry = Some v ∧
         ∀ a b, entry d' a b
                = if decide (a = city_entry ∧ b = city) then Some v else entry d a b)).
Proof.
  unfold fill_entry. intros H.
  destruct (d !! city_entry) as [row|] eqn:Hrow; [|done]. simpl in H.
  assert (city_entry ∈ dom d) as Hdom by (apply elem_of_dom; eauto).
  destruct (row !! city) as [w|] eqn:Hw.
  - rewrite bool_decide_false in H by done. simpl in H. inversion H; subst.
    repeat split; try done. left. split; [done|]. right.
    unfold entry. rewrite Hrow. simpl. rewrite Hw. eauto.
  - rewrite bool_decide_true in H by done. simpl in H.
    case_bool_decide as Hne.
    + destruct (d !! city) as [row'|] eqn:Hrow'; [|done]. simpl in H.
      destruct (row' !! city_entry) as [v|] eqn:Hv; [|done]. simpl in H.
      inversion H; subst. split; [|split; [done|]].
      * rewrite dom_insert_L. set_solver.
      * right. split; [done|]. split.
        { unfold entry. rewrite Hrow. simpl. done. }
        exists v. split.
        { unfold entry. rewrite Hrow'. simpl. done. }
        intros a b. by apply entry_insert.
    + inversion H; subst. repeat split; try done.
      left. split; [done|]. by left.
Qed.

Lemma fill_entry_KeyError city city_entry d e :
  fill_entry city city_entry d = Raise e → e = KeyError.
Proof.
  unfold fill_entry. intros H.
  destruct (d !! city_entry) as [row|]; simpl in H; [|by inversion H].
  destruct (_ && _); [|done].
  destruct (d !! city) as [row'|]; simpl in H; [|by inversion H].
  destruct (row' !! city_entry); simpl in H; [done|by inversion H].
Qed.

Lemma fill_distances_KeyError cs items d e :
  fill_distances cs items d = Raise e → e = KeyError.
Proof.
  unfold fill_distances. apply foldlM_raise_only.
  intros a b e'. apply foldlM_raise_only.
  intros a' b' e''. apply fill_entry_KeyError.
Qed.

Lemma completes_refl raw : completes raw raw.
Proof. repeat split; auto. Qed.

Lemma fill_entry_completes raw city city_entry d d' :
  completes raw d → fill_entry city city_entry d = Ok d' →
  completes raw d' ∧ (city ≠ city_entry → is_Some (entry d' city_entry city)).
Proof.
  intros (Hdom & Hkeep & Hfrom) H.
  apply fill_entry_Ok in H as (Hdom' & Hin & [[-> Hcase]|(Hne & Hnone & v & Hv & Hd')]).
  - split; [done|]. intros Hne. by destruct Hcase.
  - split.
    + split; [congruence|]. split.
      * intros a b w Hab. rewrite Hd'. case_decide as Heq; [|by apply Hkeep].
        destruct Heq as [-> ->]. apply Hkeep in Hab. congruence.
      * intros a b w. rewrite Hd'. case_decide as Heq; [|by apply Hfrom].
        destruct Heq as [-> ->]. intros [= <-].
        destruct (Hfrom _ _ _ Hv) as [Hr|[_ Hr]].
        -- right. split; [|done].
           destruct (entry raw city_entry city) as [u|] eqn:Hu; [|done].
           apply Hkeep in Hu. congruence.
        -- apply Hkeep in Hr. congruence.
    + intros _. rewrite Hd'. rewrite decide_True by done. eauto.
Qed.

Lemma fill_entry_is_Some city city_entry d d' a b :
  is_Some (entry d a b) → fill_entry city city_entry d = Ok d' →
  is_Some (entry d' a b).
Proof.
  intros Hab H.
  apply fill_entry_Ok in H as (_ & _ & [[-> _]|(_ & _ & v & _ & Hd')]); [done|].
  rewrite Hd'. case_decide; eauto.
Qed.

(** After the loops, every ordered pair of a city of the outer loop and a
    different city of the inner loop has a distance. *)
Lemma fill_distances_completes raw cs items d d' :
  completes raw d → fill_distances cs items d = Ok d' →
  completes raw d' ∧
  ∀ c e, c ∈ cs → e ∈ items → c ≠ e → is_Some (entry d' e c).
Proof.
  intros Hc Hrun. unfold fill_distances in Hrun.
  pose (Q := λ (c : string) (d : gmap string (gmap string Z)),
             ∀ e, e ∈ items → c ≠ e → is_Some (entry d e c)).
  assert (Hinner : ∀ c d d', completes raw d →
            foldlM (λ d2 city_entry, fill_entry c city_entry d2) d items = Ok d' →
            completes raw d' ∧ Q c d' ∧
            ∀ a b, is_Some (entry d a b) → is_Some (entry d' a b)).
  { intros c d0 d1 Hc0 Hrun0.
    apply (foldlM_invariant _
             (λ d2, completes raw d2 ∧ ∀ a b, is_Some (entry d0 a b) → is_Some (entry d2 a b))
             (λ e d2, c ≠ e → is_Some (entry d2 e c))) in Hrun0.
    - destruct Hrun0 as [[? ?] ?]. unfold Q. naive_solver.
    - intros a b a' [Hca Hmono] Hf.
      destruct (fill_entry_completes _ _ _ _ _ Hca Hf) as [? ?].
      split; [split; [done|]|done].
      intros x y Hxy. eapply fill_entry_is_Some; [|exact Hf]. by apply Hmono.
    - intros a b b' a' _ HQ Hf Hne. eapply fill_entry_is_Some; [|exact Hf]. by apply HQ.
    - split; [done|]. auto. }
  apply (foldlM_invariant _ (completes raw) Q) in Hrun; [|..|done].
  - destruct Hrun as [? HQ]. split; [done|]. intros c e Hcin Hein Hne. by apply HQ.
  - intros a c a' Ha Hf. destruct (Hinner _ _ _ Ha Hf) as (? & ? & ?). done.
  - intros a c c' a' Ha HQ Hf e Hein Hne.
    destruct (Hinner _ _ _ Ha Hf) as (_ & _ & Hmono). apply Hmono. by apply HQ.
Qed.

Lemma elem_of_keys {V} (d : gmap string V) x : x ∈ keys d ↔ x ∈ dom d.
Proof.
  unfold keys. rewrite list_elem_of_fmap, elem_of_dom. split.
  - intros ([k v] & -> & Hkv). apply elem_of_map_to_list in Hkv. eauto.
  - intros [v Hv]. exists (x, v). split; [done|]. by apply elem_of_map_to_list.
Qed.

Lemma NoDup_keys {V} (d : gmap string V) : NoDup (keys d).
Proof. apply NoDup_fst_map_to_list. Qed.

Lemma sorted_keys_Permutation {V} (d : gmap string V) :
  merge_sort String.le (keys d) ≡ₚ keys d.
Proof. apply merge_sort_Permutation. Qed.

Lemma elem_of_sorted_keys {V} (d : gmap string V) x :
  x ∈ merge_sort String.le (keys d) ↔ x ∈ dom d.
Proof. by rewrite sorted_keys_Permutation, elem_of_keys. Qed.

(** What a successful import establishes. *)
Lemma import_distances_Ok raw imp :
  import_distances raw = Ok imp →
  completes raw (i_distances imp) ∧
  (∀ a b, a ∈ dom raw → b ∈ dom raw → a ≠ b → is_Some (entry (i_distances imp) a b)) ∧
  i_cities imp ≡ₚ keys raw ∧
  NoDup (i_cities imp) ∧
  i_num_cities imp = length (i_cities imp) ∧
  i_index_city_map imp = map_seq 0 (i_cities imp).
Proof.
  unfold import_distances. intros H.
  destruct (fill_distances _ _ raw) as [d|e] eqn:Hfill; [|done].
  simpl in H. inversion H; subst; clear H. simpl.
  apply fill_distances_completes with (raw := raw) in Hfill as [Hc Hall];
    [|apply completes_refl].
  split; [done|]. split.
  - intros a b Ha Hb Hne. apply Hall; [|by apply elem_of_keys|done].
    by apply elem_of_sorted_keys.
  - split; [apply sorted_keys_Permutation|]. split; [|done].
    rewrite sorted_keys_Permutation. apply NoDup_keys.
Qed.

Lemma import_distances_KeyError raw e :
  import_distances raw = Raise e → e = KeyError.
Proof.
  unfold import_distances. intros H.
  destruct (fill_distances _ _ raw) as [d|e'] eqn:Hfill; [done|].
  simpl in H. inversion H; subst. by eapply fill_distances_KeyError.
Qed.

Lemma import_distances_absent raw x y :
  x ∈ dom raw → y ∈ dom raw → x ≠ y →
  entry raw x y = None → entry raw y x = None →
  import_distances raw = Raise KeyError.
Proof.
  intros Hx Hy Hne Hxy Hyx.
  destruct (import_distances raw) as [imp|e] eqn:Himp.
  - apply import_distances_Ok in Himp as ((_ & _ & Hfrom) & Hall & _).
    destruct (Hall x y Hx Hy Hne) as [v Hv].
    destruct (Hfrom _ _ _ Hv) as [?|[_ ?]]; congruence.
  - f_equal. by eapply import_distances_KeyError.
Qed.

Lemma init_import_Raise p b raw coin e :
  import_distances raw = Raise e → __init__ p b raw coin = Raise e.
Proof. unfold __init__. by intros ->. Qed.

(** ** Nets *)

Lemma elem_of_range2 r0 r1 c0 c1 p :
  p ∈ range2 r0 r1 c0 c1 ↔ (r0 ≤ p.1 < r1 ∧ c0 ≤ p.2 < c1)%nat.
Proof.
  unfold range2. rewrite list_elem_of_bind. split.
  - intros (i & Hp & Hi). apply list_elem_of_bind in Hp as (j & Hp & Hj).
    apply list_elem_of_singleton in Hp as ->. simpl.
    apply elem_of_seq in Hi. apply elem_of_seq in Hj. lia.
  - intros [Hi Hj]. exists p.1. split; [|apply elem_of_seq; lia].
    apply list_elem_of_bind. exists p.2. split; [|apply elem_of_seq; lia].
    destruct p. simpl. apply list_elem_of_singleton. done.
Qed.

Lemma NoDup_range2 r0 r1 c0 c1 : NoDup (range2 r0 r1 c0 c1).
Proof.
  unfold range2. apply NoDup_bind; [| |apply NoDup_seq].
  - intros i1 i2 p _ _ H1 H2.
    apply list_elem_of_bind in H1 as (j1 & ->%list_elem_of_singleton & _).
    apply list_elem_of_bind in H2 as (j2 & [= -> _]%list_elem_of_singleton & _). done.
  - intros i _. apply NoDup_bind; [| |apply NoDup_seq].
    + intros j1 j2 p _ _ ->%list_elem_of_singleton [= ->]%list_elem_of_singleton. done.
    + intros j _. apply NoDup_singleton.
Qed.

Lemma elem_of_iter g p : p ∈ __iter__ g ↔ (p.1 < dim g ∧ p.2 < dim g)%nat.
Proof. unfold __iter__. rewrite elem_of_range2. lia. Qed.

Lemma elem_of_square_iter g e p :
  p ∈ square_iter g 0 e None None ↔ (p.1 < dim g ∧ e ≤ p.2 < dim g)%nat.
Proof. unfold square_iter. simpl. rewrite elem_of_range2. lia. Qed.

Lemma elem_of_true_cells g p :
  p ∈ true_cells g ↔ on g p = true ∧ (p.1 < dim g ∧ p.2 < dim g)%nat.
Proof.
  unfold true_cells. rewrite list_elem_of_filter, elem_of_iter.
  by rewrite Is_true_true.
Qed.


Lemma getitem_square g p :
  square g → (p.1 < dim g)%nat → (p.2 < dim g)%nat →
  __getitem__ g p = Ok (on g p).
Proof.
  intros [Hlen Hrows] Hi Hj. unfold __getitem__, on.
  destruct (lookup_lt_is_Some_2 (cells g) p.1) as [row Hrow]; [lia|].
  rewrite Hrow. simpl.
  assert (length row = dim g) as Hr.
  { eapply Forall_forall in Hrows; [exact Hrows|]. by eapply list_elem_of_lookup_2. }
  destruct (lookup_lt_is_Some_2 row p.2) as [b Hb]; [lia|].
  by rewrite Hb.
Qed.

(** Only the columns from [e] on survive in every row of the scan. *)
Lemma filter_seq_ge e n : filter (λ j, e ≤ j)%nat (seq 0 n) = seq e (n - e).
Proof.
  induction n as [|n IH]; [done|].
  rewrite seq_S, filter_app, IH. simpl.
  destruct (decide (e ≤ n)%nat) as [Hle|Hgt].
  - rewrite filter_cons_True, filter_nil by done.
    replace (S n - e)%nat with (S (n - e)) by lia.
    rewrite seq_S. do 2 f_equal. lia.
  - rewrite filter_cons_False, filter_nil by done.
    replace (S n - e)%nat with 0%nat by lia.
    replace (n - e)%nat with 0%nat by lia. done.
Qed.

Lemma filter_row_ge e (i : nat) (l : list nat) :
  filter (λ p : cell, e ≤ p.2)%nat (l ≫= λ j, [(i, j)])
  = filter (λ j, e ≤ j)%nat l ≫= λ j, [(i, j)].
Proof.
  induction l as [|j l IH]; [done|].
  rewrite bind_cons, filter_app, IH, (filter_cons _ j l).
  rewrite filter_cons, filter_nil. simpl.
  destruct (decide (e ≤ j)%nat); [by rewrite bind_cons|done].
Qed.

Lemma filter_rows_ge e (rows cols : list nat) :
  filter (λ p : cell, e ≤ p.2)%nat (rows ≫= λ i, cols ≫= λ j, [(i, j)])
  = rows ≫= λ i, filter (λ j, e ≤ j)%nat cols ≫= λ j, [(i, j)].
Proof.
  induction rows as [|i rows IH]; [done|].
  by rewrite !bind_cons, filter_app, IH, filter_row_ge.
Qed.

Lemma square_iter_filter g e :
  square_iter g 0 e None None = filter (λ p : cell, e ≤ p.2)%nat (__iter__ g).
Proof.
  unfold square_iter, __iter__, range2. simpl.
  by rewrite filter_rows_ge, Nat.sub_0_r, filter_seq_ge.
Qed.

Lemma true_square_iter g e :
  filter (λ p, on g p) (square_iter g 0 e None None)
  = filter (λ p : cell, e ≤ p.2)%nat (true_cells g).
Proof.
  unfold true_cells. rewrite square_iter_filter, !list_filter_filter.
  apply list_filter_iff. naive_solver.
Qed.

(** ** Sums *)


Lemma Zsum_ext {A} (f h : A → Z) l :
  (∀ a, a ∈ l → f a = h a) → Zsum f l = Zsum h l.
Proof.
  induction l as [|a l IH]; intros H; simpl; [done|].
  rewrite H by left. rewrite IH; [done|]. intros b Hb. apply H. by right.
Qed.


Lemma Zsum_filter {A} (P : A → bool) (f : A → Z) l :
  Zsum (λ a, if P a then f a else 0) l = Zsum f (filter (λ a, P a) l).
Proof.
  induction l as [|a l IH]; [done|].
  rewrite filter_cons. simpl. destruct (P a) eqn:E; simpl; rewrite IH; done.
Qed.

Lemma Zsum_const {A} (c : Z) (l : list A) : Zsum (λ _, c) l = c * Z.of_nat (length l).
Proof. induction l as [|a l IH]; [simpl; lia|]. simpl Zsum. rewrite IH. simpl length. lia. Qed.

Lemma foldlM_Zsum {B} (f : Z → B → result Z) (h : B → Z) l a :
  (∀ a b, b ∈ l → f a b = Ok (a + h b)) →
  foldlM f a l = Ok (a + Zsum h l).
Proof.
  revert a. induction l as [|b l IH]; intros a H; simpl.
  - f_equal. lia.
  - rewrite H by left. simpl. rewrite IH.
    + f_equal. lia.
    + intros a' b' Hb'. apply H. by right.
Qed.

Lemma foldlM_Zsum2 {B} (f : Z * Z → B → result (Z * Z)) (h1 h2 : B → Z) l a :
  (∀ a b, b ∈ l → f a b = Ok (a.1 + h1 b, a.2 + h2 b)) →
  foldlM f a l = Ok (a.1 + Zsum h1 l, a.2 + Zsum h2 l).
Proof.
  revert a. induction l as [|b l IH]; intros a H; simpl.
  - destruct a. simpl. do 2 f_equal; lia.
  - rewrite H by left. simpl. rewrite IH.
    + simpl. do 2 f_equal; lia.
    + intros a' b' Hb'. apply H. by right.
Qed.

(** ** The consensus *)

Lemma complete_lookup s i j :
  complete s → (i < num_cities s)%nat → (j < num_cities s)%nat → i ≠ j →
  ∃ v, lookup_weight s i j = Ok v.
Proof.
  unfold complete. rewrite forallb_forall. intros H Hi Hj Hne.
  specialize (H i). rewrite forallb_forall in H.
  assert (In i (seq 0 (num_cities s))) as Hi' by (apply in_seq; lia).
  assert (In j (seq 0 (num_cities s))) as Hj' by (apply in_seq; lia).
  specialize (H Hi' j Hj'). rewrite bool_decide_false in H by done. simpl in H.
  destruct (lookup_weight s i j); [eauto|done].
Qed.

Lemma calculate_weight_complete s A B :
  complete s → (A.1 < num_cities s)%nat → (B.1 < num_cities s)%nat →
  calculate_weight s A.1 A.2 B.1 B.2 = Ok (weight s A B).
Proof.
  intros Hc HA HB. unfold weight, calculate_weight.
  repeat case_bool_decide; try done.
  destruct (complete_lookup s A.1 B.1) as [v ->]; done.
Qed.


(** The loops of [calculate_concensus], summed. *)
Lemma concensus_of_scan s g :
  square g → dim g = num_cities s → complete s →
  concensus_of s g
  = Ok (Zsum (λ A, Zsum (λ B, weight s A B)
                        (filter (λ B : cell, A.2 ≤ B.2)%nat (true_cells g)))
             (true_cells g)
        - bonus s * Z.of_nat (length (true_cells g))).
Proof.
  intros Hsq Hdim Hc. unfold concensus_of, for_yield.
  rewrite (foldlM_Zsum2 _
    (λ A, if on g A
          then Zsum (λ B, weight s A B * b2z (on g B)) (square_iter g 0 A.2 None None)
          else 0)
    (λ A, if on g A then bonus s else 0)).
  - simpl. f_equal. f_equal.
    + rewrite Zsum_filter. apply Zsum_ext. intros A _.
      rewrite <-true_square_iter, <-Zsum_filter. apply Zsum_ext. intros B _.
      destruct (on g B); simpl; lia.
    + rewrite Zsum_filter, Zsum_const. done.
  - intros [w b] A [HA1 HA2]%elem_of_iter.
    rewrite getitem_square by done. simpl.
    destruct (on g A) eqn:HonA; [|do 2 f_equal; lia].
    rewrite (foldlM_Zsum _ (λ B, weight s A B * b2z (on g B))); [done|].
    intros a B [HB1 HB2]%elem_of_square_iter.
    rewrite getitem_square by (done || lia). simpl.
    rewrite calculate_weight_complete by (done || lia). simpl.
    f_equal. lia.
Qed.




Lemma concensus_sums_pairs_aux s g :
  square g → dim g = num_cities s → complete s →
  ∃ c, concensus_of s g = Ok c.
Proof. intros. rewrite concensus_of_scan by done. eauto. Qed.

Lemma two_city_tsp_complete g : complete (two_city_tsp g).
Proof. reflexivity. Qed.

Lemma two_city_tsp_init :
  __init__ 3 1 two_cities first_column = Ok (set_concensus (two_city_tsp same_epoch) 4).
Proof. vm_compute. reflexivity. Qed.




(** ** Construction *)

Lemma complete_intro s :
  (∀ i j, (i < num_cities s)%nat → (j < num_cities s)%nat → i ≠ j →
          ∃ v, lookup_weight s i j = Ok v) →
  complete s.
Proof.
  intros H. unfold complete. apply forallb_forall. intros i Hi%in_seq.
  apply forallb_forall. intros j Hj%in_seq.
  destruct (decide (i = j)) as [->|Hne]; [by rewrite bool_decide_true|].
  rewrite bool_decide_false by done.
  destruct (H i j) as [v ->]; [lia|lia|done|done].
Qed.

Lemma square_Net_init n coin : square (Net_init n coin) ∧ dim (Net_init n coin) = n.
Proof.
  split; [|done]. split; simpl.
  - by rewrite length_fmap, length_seq.
  - apply Forall_fmap, Forall_forall. intros i _. simpl.
    by rewrite length_fmap, length_seq.
Qed.

(** The state [import_distances] leaves is complete. *)
Lemma imported_complete raw imp s :
  import_distances raw = Ok imp →
  distances s = i_distances imp → index_city_map s = i_index_city_map imp →
  num_cities s = i_num_cities imp →
  complete s.
Proof.
  intros Himp Hd Hm Hn.
  apply import_distances_Ok in Himp as (_ & Hall & Hperm & Hnd & Hlen & Hmap).
  apply complete_intro. intros i j Hi Hj Hne.
  rewrite Hn, Hlen in Hi, Hj.
  destruct (lookup_lt_is_Some_2 (i_cities imp) i Hi) as [a Ha].
  destruct (lookup_lt_is_Some_2 (i_cities imp) j Hj) as [b Hb].
  assert (a ≠ b) as Hab.
  { intros ->. apply Hne. by eapply NoDup_lookup. }
  assert (a ∈ dom raw ∧ b ∈ dom raw) as [Hain Hbin].
  { rewrite <-!elem_of_keys, <-!Hperm. split; by eapply list_elem_of_lookup_2. }
  destruct (Hall a b Hain Hbin Hab) as [v Hv].
  exists v. unfold lookup_weight. rewrite Hm, Hmap, !lookup_map_seq_0, Ha, Hb. simpl.
  unfold entry in Hv. rewrite Hd.
  destruct (i_distances imp !! a) as [row|]; [|done]. simpl in *. by rewrite Hv.
Qed.

(** Construction succeeds exactly when the import does, whatever the
    penalty and the bonus, and leaves both net fields on one object. *)
Lemma init_Ok p b raw coin imp :
  import_distances raw = Ok imp →
  ∃ s, __init__ p b raw coin = Ok s ∧
       consistent s ∧ complete s ∧ holds s (Net_init (num_cities s) coin) ∧
       min_net s = net s ∧ penalty s = p ∧ bonus s = b ∧
       distances s = i_distances imp ∧ cities s = i_cities imp ∧
       concensus_of s (Net_init (num_cities s) coin) = Ok (concensus s).
Proof.
  intros Himp. unfold __init__. rewrite Himp. simpl.
  set (s0 := mkTsp _ _ _ _ _ _ _ _ _ _).
  assert (complete s0) as Hc by (by eapply imported_complete).
  destruct (square_Net_init (i_num_cities imp) coin) as [Hsq Hdim].
  unfold calculate_concensus, deref. simpl.
  destruct (concensus_sums_pairs_aux s0 (Net_init (i_num_cities imp) coin)) as [c Hcs];
    [done..|].
  rewrite Hcs. simpl. eexists. split; [done|].
  apply import_distances_Ok in Himp as (_ & _ & _ & Hnd & Hlen & Hmap).
  destruct Hsq as [Hsq1 Hsq2].
  repeat split; simpl; done.
Qed.

Lemma lookup_weight_absent s i j a b :
  index_city_map s !! i = Some a → index_city_map s !! j = Some b →
  entry (distances s) a b = None →
  lookup_weight s i j = Raise KeyError.
Proof.
  intros Ha Hb Hab. unfold lookup_weight. rewrite Ha. simpl.
  unfold entry in Hab. destruct (distances s !! a) as [row|]; [|done].
  simpl in *. rewrite Hb. simpl. by rewrite Hab.
Qed.

(** C3 (as amended). For every input distance mapping and every pair of
    distinct cities whose distance is absent in both directions, building
    the table fails during construction: [import_distances] raises the
    lookup error (KeyError) when it tries to copy the missing distance, and
    so does [__init__], whatever the parameters; no table in which the pair
    is absent is produced. (A lookup of a pair absent from a table raises
    the same error.) *)
Theorem import_raises_on_absent_pair raw x y :
  x ∈ dom raw → y ∈ dom raw → x ≠ y →
  entry raw x y = None → entry raw y x = None →
  import_distances raw = Raise KeyError
  ∧ (∀ p b coin, __init__ p b raw coin = Raise KeyError)
  ∧ (∀ s i j a c, index_city_map s !! i = Some a → index_city_map s !! j = Some c →
                  entry (distances s) a c = None →
                  lookup_weight s i j = Raise KeyError).
Proof.
  intros Hx Hy Hne Hxy Hyx.
  assert (import_distances raw = Raise KeyError) as H
    by (by apply (import_distances_absent raw x y)).
  split; [done|]. split.
  - intros p b coin. by apply init_import_Raise.
  - intros s i j a c. apply lookup_weight_absent.
Qed.

Lemma import_raises_on_absent_pair_witness :
  import_distances two_strangers = Raise KeyError
  ∧ (∀ p b coin, __init__ p b two_strangers coin = Raise KeyError)
  ∧ (∀ s i j a c, index_city_map s !! i = Some a → index_city_map s !! j = Some c →
                  entry (distances s) a c = None →
                  lookup_weight s i j = Raise KeyError).
Proof.
  apply (import_raises_on_absent_pair two_strangers "A" "B").
  - apply elem_of_dom. vm_compute. eauto.
  - apply elem_of_dom. vm_compute. eauto.
  - discriminate.
  - reflexivity.
  - reflexivity.
Defined.

(** C3 (as stated) fails for two cities with no distance between them:
    building the table does not succeed, it raises. *)
Lemma import_two_strangers_raises :
  entry two_strangers "A" "B" = None
  ∧ entry two_strangers "B" "A" = None
  ∧ import_distances two_strangers = Raise KeyError
  ∧ __init__ 3 1 two_strangers all_off = Raise KeyError.
Proof. vm_compute. done. Qed.

(** C7 (as amended). For every input distance mapping on which the import
    succeeds and every pair of distinct cities [x], [y] (keys of the
    mapping): when the distance is given in exactly one direction, both
    directions of the built table hold it, so [dist[x][y] == dist[y][x]];
    when both directions are given, the table keeps the two given values
    as they are, equal or not. *)
Theorem import_distances_symmetric_completion raw imp x y v :
  import_distances raw = Ok imp →
  y ∈ dom raw → x ≠ y → entry raw x y = Some v →
  (entry raw y x = None →
     entry (i_distances imp) x y = Some v ∧ entry (i_distances imp) y x = Some v)
  ∧ (∀ w, entry raw y x = Some w →
     entry (i_distances imp) x y = Some v ∧ entry (i_distances imp) y x = Some w).
Proof.
  intros Himp Hy Hne Hxy.
  assert (x ∈ dom raw) as Hx.
  { apply elem_of_dom. unfold entry in Hxy. destruct (raw !! x); [eauto|done]. }
  apply import_distances_Ok in Himp as ((_ & Hkeep & Hfrom) & Hall & _).
  split.
  - intros Hyx. split; [by apply Hkeep|].
    destruct (Hall y x Hy Hx) as [w Hw]; [done|].
    destruct (Hfrom _ _ _ Hw) as [?|[_ ?]]; congruence.
  - intros w Hyx. split; by apply Hkeep.
Qed.

Lemma import_distances_symmetric_completion_witness :
  ∃ imp, import_distances two_cities = Ok imp
         ∧ entry (i_distances imp) "A" "B" = Some 5
         ∧ entry (i_distances imp) "B" "A" = Some 5.
Proof.
  destruct (import_distances two_cities) as [imp|e] eqn:Himp; [|by vm_compute in Himp].
  exists imp. split; [done|].
  refine (proj1 (import_distances_symmetric_completion
                   two_cities imp "A" "B" 5 Himp _ _ _) _).
  - apply elem_of_dom. vm_compute. eauto.
  - discriminate.
  - reflexivity.
  - reflexivity.
Defined.

(** C7 (as stated) fails when both directions are given with different
    values: the table keeps both, [dist[A][B] = 1] and [dist[B][A] = 2]. *)
Lemma import_keeps_asymmetric_input :
  ∃ imp, import_distances one_way_street = Ok imp
         ∧ entry (i_distances imp) "A" "B" = Some 1
         ∧ entry (i_distances imp) "B" "A" = Some 2.
Proof. eexists. vm_compute. done. Qed.

(** C5 (as amended). For every pair of parameters with [penalty <= bonus],
    the command-line entry fails fast: its assertion
    [args.bonus < args.penalty] raises before the model is constructed.
    The constructor itself does not compare the two parameters: with any
    penalty and bonus it completes normally whenever the distances import. *)
Theorem main_asserts_bonus_below_penalty a raw coin draws :
  a_penalty a ≤ a_bonus a →
  main a raw coin draws = Some (Raise AssertionError)
  ∧ (∀ imp, import_distances raw = Ok imp →
            ∃ s, __init__ (a_penalty a) (a_bonus a) raw coin = Ok s
                 ∧ penalty s = a_penalty a ∧ bonus s = a_bonus a).
Proof.
  intros Hle. split.
  - unfold main. rewrite bool_decide_false; [done|lia].
  - intros imp Himp.
    destruct (init_Ok (a_penalty a) (a_bonus a) raw coin imp Himp)
      as (s & Hs & _ & _ & _ & _ & Hp & Hb & _).
    eauto.
Qed.

Lemma main_asserts_bonus_below_penalty_witness :
  main (mkArgs 1 2 100 100 0.95) two_cities all_off [] = Some (Raise AssertionError)
  ∧ (∀ imp, import_distances two_cities = Ok imp →
            ∃ s, __init__ 1 2 two_cities all_off = Ok s
                 ∧ penalty s = 1 ∧ bonus s = 2).
Proof.
  apply (main_asserts_bonus_below_penalty (mkArgs 1 2 100 100 0.95) two_cities all_off []).
  simpl. lia.
Defined.

(** C5 (as stated) fails: with penalty 1 and bonus 2 the constructor
    completes normally. *)
Lemma init_accepts_penalty_below_bonus :
  ∃ s, __init__ 1 2 two_cities all_off = Ok s
       ∧ penalty s = 1 ∧ bonus s = 2 ∧ concensus s = 0.
Proof. eexists. vm_compute. done. Qed.

(** ** Flips *)

Lemma flip_twice g i j g1 : flip g i j = Ok g1 → flip g1 i j = Ok g.
Proof.
  unfold flip. intros H.
  destruct (cells g !! i) as [row|] eqn:Hrow; [|done]. simpl in H.
  destruct (row !! j) as [b|] eqn:Hb; [|done]. simpl in H.
  inversion H; subst; clear H. simpl.
  rewrite list_lookup_insert_eq by (by eapply lookup_lt_Some). simpl.
  rewrite list_lookup_insert_eq by (by eapply lookup_lt_Some). simpl.
  rewrite !list_insert_insert_eq, negb_involutive.
  rewrite (list_insert_id row j b) by done.
  rewrite (list_insert_id (cells g) i row) by done.
  by destruct g.
Qed.

Lemma flip_on g i j g1 p :
  flip g i j = Ok g1 →
  on g1 p = if decide (p = (i, j)) then negb (on g p) else on g p.
Proof.
  unfold flip, on. intros H.
  destruct (cells g !! i) as [row|] eqn:Hrow; [|done]. simpl in H.
  destruct (row !! j) as [b|] eqn:Hb; [|done]. simpl in H.
  inversion H; subst; clear H. simpl. destruct p as [i' j']. simpl.
  destruct (decide (i' = i)) as [->|Hi].
  - rewrite list_lookup_insert_eq by (by eapply lookup_lt_Some). rewrite Hrow. simpl.
    destruct (decide (j' = j)) as [->|Hj].
    + rewrite list_lookup_insert_eq by (by eapply lookup_lt_Some).
      rewrite decide_True by done. by rewrite Hb.
    + rewrite list_lookup_insert_ne by done. rewrite decide_False; [done|congruence].
  - rewrite list_lookup_insert_ne by done. rewrite decide_False; [done|congruence].
Qed.

Lemma flip_square g i j :
  square g → (i < dim g)%nat → (j < dim g)%nat →
  ∃ g1, flip g i j = Ok g1 ∧ square g1 ∧ dim g1 = dim g.
Proof.
  intros [Hlen Hrows] Hi Hj. unfold flip.
  destruct (lookup_lt_is_Some_2 (cells g) i) as [row Hrow]; [lia|].
  assert (length row = dim g) as Hr.
  { eapply Forall_forall in Hrows; [exact Hrows|]. by eapply list_elem_of_lookup_2. }
  destruct (lookup_lt_is_Some_2 row j) as [b Hb]; [lia|].
  rewrite Hrow. simpl. rewrite Hb. simpl. eexists. split; [done|].
  split; [|done]. split; simpl.
  - by rewrite length_insert.
  - apply Forall_insert; [done|]. by rewrite length_insert.
Qed.

(** ** One iteration of the annealing loop *)

Lemma pick_random_net_indices_Ok s u :
  (0 < num_cities s)%nat →
  ∃ i j, pick_random_net_indices s u = Ok (i, j)
         ∧ (i < num_cities s)%nat ∧ (j < num_cities s)%nat.
Proof.
  intros Hn. unfold pick_random_net_indices.
  rewrite bool_decide_false by nia.
  eexists _, _. split; [done|]. split.
  - apply Nat.Div0.div_lt_upper_bound. apply Nat.mod_upper_bound. nia.
  - apply Nat.mod_upper_bound. lia.
Qed.

Lemma bind_Ok {A B} (a : A) (f : A → result B) : Ok a ≫= f = f a.
Proof. done. Qed.

Lemma net_flip_holds s g i j g1 :
  store s !! net s = Some g → flip g i j = Ok g1 →
  net_flip s i j = Ok (set_store s (<[net s := g1]> (store s))).
Proof. intros Hg Hf. unfold net_flip, deref. rewrite Hg. simpl. by rewrite Hf. Qed.

Lemma calculate_concensus_holds s g c :
  store s !! net s = Some g → concensus_of s g = Ok c →
  calculate_concensus s = Ok (set_concensus s c).
Proof. intros Hg Hc. unfold calculate_concensus, deref. rewrite Hg. simpl. by rewrite Hc. Qed.

Lemma snapshot_holds s g :
  store s !! net s = Some g →
  snapshot s = Ok (set_min_net (set_store s (store s ++ [g])) (length (store s))).
Proof. intros Hg. unfold snapshot, deref. by rewrite Hg. Qed.

(** The outcome of the loop body on a solver that holds a square net and
    has a complete table: the picked cell is flipped, the consensus is
    recomputed, a rejected flip is undone, and the net is copied when the
    consensus went below the minimum. *)
Lemma anneal_body_Ok s g u (acc : bool) temp decay minc :
  holds s g → complete s → (0 < num_cities s)%nat →
  PrimFloat.eqb temp 0 = false →
  ∃ i j g1 c,
    pick_random_net_indices s u = Ok (i, j) ∧
    flip g i j = Ok g1 ∧ square g1 ∧ dim g1 = dim g ∧
    concensus_of s g1 = Ok c ∧
    let s3 := if acc
              then set_concensus (set_store s (<[net s := g1]> (store s))) c
              else s in
    let g3 := if acc then g1 else g in
    anneal_body decay (u, acc) (s, temp, minc)
    = Ok (if bool_decide (concensus s3 < minc)
          then (set_min_net (set_store s3 (store s3 ++ [g3])) (length (store s3)),
                (temp * decay)%float, concensus s3)
          else (s3, (temp * decay)%float, minc)).
Proof.
  intros (Hg & Hsq & Hdim) Hc Hn Hnz.
  destruct (pick_random_net_indices_Ok s u Hn) as (i & j & Hpick & Hi & Hj).
  destruct (flip_square g i j) as (g1 & Hflip & Hsq1 & Hdim1); [done|lia|lia|].
  destruct (concensus_sums_pairs_aux s g1) as [c Hcs]; [done|congruence|done|].
  exists i, j, g1, c. repeat (split; [done|]).
  assert (net s < length (store s))%nat as Hlt by (by eapply lookup_lt_Some).
  set (s1 := set_store s (<[net s := g1]> (store s))).
  assert (store s1 !! net s1 = Some g1) as Hg1
    by (simpl; by rewrite list_lookup_insert_eq).
  unfold anneal_body. cbn [fst snd]. rewrite Hpick, bind_Ok.
  rewrite (net_flip_holds s g i j g1 Hg Hflip), bind_Ok. fold s1.
  rewrite (calculate_concensus_holds s1 g1 c Hg1 Hcs), bind_Ok.
  unfold accept_change. rewrite Hnz, bind_Ok.
  destruct acc; cbn [negb].
  - rewrite bind_Ok. case_bool_decide; [|done].
    by rewrite (snapshot_holds (set_concensus s1 c) g1 Hg1).
  - rewrite (net_flip_holds (set_concensus (set_concensus s1 c) (concensus s)) g1 i j g Hg1
               (flip_twice _ _ _ _ Hflip)), bind_Ok.
    assert (set_store (set_concensus (set_concensus s1 c) (concensus s))
              (<[net (set_concensus (set_concensus s1 c) (concensus s)) := g]>
                 (store (set_concensus (set_concensus s1 c) (concensus s)))) = s)
      as ->.
    { simpl. rewrite list_insert_insert_eq, list_insert_id by done. by destruct s. }
    case_bool_decide; [|done].
    by rewrite (snapshot_holds _ g Hg).
Qed.

(** The body never raises on such a solver, leaves it such a solver, and
    multiplies the temperature by the decay rate whatever the draw. *)
Lemma anneal_body_ready s g dr temp decay minc :
  holds s g → complete s → (0 < num_cities s)%nat →
  PrimFloat.eqb temp 0 = false →
  ∃ s' g' minc',
    anneal_body decay dr (s, temp, minc) = Ok (s', (temp * decay)%float, minc')
    ∧ holds s' g' ∧ complete s' ∧ num_cities s' = num_cities s.
Proof.
  intros Hh Hc Hn Hnz. destruct dr as [u acc].
  destruct (anneal_body_Ok s g u acc temp decay minc Hh Hc Hn Hnz)
    as (i & j & g1 & c & _ & _ & Hsq1 & Hdim1 & _ & Hrun).
  destruct Hh as (Hg & Hsq & Hdim).
  assert (net s < length (store s))%nat as Hlt by (by eapply lookup_lt_Some).
  cbv zeta in Hrun. rewrite Hrun. clear Hrun.
  destruct acc; case_bool_decide; eexists _, _, _; (split; [reflexivity|]);
    (split; [|split; [exact Hc|reflexivity]]).
  - split; [|split; [exact Hsq1|exact (eq_trans Hdim1 Hdim)]]. simpl.
    rewrite lookup_app_l by (by rewrite length_insert).
    by rewrite list_lookup_insert_eq.
  - split; [|split; [exact Hsq1|exact (eq_trans Hdim1 Hdim)]]. simpl.
    by rewrite list_lookup_insert_eq.
  - split; [|split; [exact Hsq|exact Hdim]]. simpl.
    by rewrite lookup_app_l.
  - split; [exact Hg|split; [exact Hsq|exact Hdim]].
Qed.



Lemma anneal_loop_cons min_temp decay dr rest s temp minc n :
  anneal_loop min_temp decay (dr :: rest) (s, temp, minc) n
  = if PrimFloat.leb min_temp temp then
      match anneal_body decay dr (s, temp, minc) with
      | Raise e => Some (Raise e)
      | Ok st' => anneal_loop min_temp decay rest st' (S n)
      end
    else Some (Ok (s, temp, n, dr :: rest)).
Proof. done. Qed.

Lemma anneal_loop_nil min_temp decay s temp minc n :
  anneal_loop min_temp decay [] (s, temp, minc) n
  = if PrimFloat.leb min_temp temp then None else Some (Ok (s, temp, n, [])).
Proof. done. Qed.


(** The minimum never exceeds the stored consensus between iterations. *)
Lemma anneal_body_min_le s g dr temp decay minc s' temp' minc' :
  holds s g → complete s → (0 < num_cities s)%nat →
  PrimFloat.eqb temp 0 = false →
  anneal_body decay dr (s, temp, minc) = Ok (s', temp', minc') →
  minc ≤ concensus s → minc' ≤ concensus s'.
Proof.
  intros Hh Hc Hn Hnz Hrun Hle. destruct dr as [u acc].
  destruct (anneal_body_Ok s g u acc temp decay minc Hh Hc Hn Hnz)
    as (i & j & g1 & c & _ & _ & _ & _ & _ & Hrun').
  cbv zeta in Hrun'. rewrite Hrun' in Hrun. clear Hrun'.
  destruct acc; case_bool_decide; inversion Hrun; subst; simpl in *; lia.
Qed.

Lemma bind_Ok_inv {A B} (m : result A) (f : A → result B) b :
  m ≫= f = Ok b → ∃ a, m = Ok a ∧ f a = Ok b.
Proof. destruct m as [a|e]; [eauto|done]. Qed.

Lemma net_flip_inv s i j s1 :
  net_flip s i j = Ok s1 →
  ∃ g g1, store s !! net s = Some g ∧ flip g i j = Ok g1
          ∧ s1 = set_store s (<[net s := g1]> (store s)).
Proof.
  unfold net_flip, deref. intros (g & Hg%or_raise_Ok & H)%bind_Ok_inv.
  apply bind_Ok_inv in H as (g1 & Hflip & [= <-]). eauto.
Qed.

Lemma calculate_concensus_inv s s2 :
  calculate_concensus s = Ok s2 →
  ∃ g c, store s !! net s = Some g ∧ concensus_of s g = Ok c
         ∧ s2 = set_concensus s c.
Proof.
  unfold calculate_concensus, deref. intros (g & Hg%or_raise_Ok & H)%bind_Ok_inv.
  apply bind_Ok_inv in H as (c & Hc & [= <-]). eauto.
Qed.

(** C8. For every annealing iteration whose proposed flip is rejected, the
    state is exactly restored. Whenever such an iteration completes, its
    proposal flipped the picked cell [(i, j)] and no other cell, the second
    flip gave back the net as it was, and the iteration ends holding the
    net of before with the stored consensus of before and the temperature
    decayed once; the minimum being at most that consensus, as it is
    throughout a pass, the whole solver state is unchanged. And it does
    complete on a solver that holds a square net over its cities, with a
    complete table, at a temperature other than zero. *)
Theorem rejected_flip_restores_state s u temp decay minc :
  (∀ s' temp' minc',
     anneal_body decay (u, false) (s, temp, minc) = Ok (s', temp', minc') →
     ∃ g i j g1,
       store s !! net s = Some g
       ∧ pick_random_net_indices s u = Ok (i, j)
       ∧ flip g i j = Ok g1
       ∧ (∀ p, on g1 p = if decide (p = (i, j)) then negb (on g p) else on g p)
       ∧ flip g1 i j = Ok g
       ∧ store s' !! net s' = Some g
       ∧ concensus s' = concensus s
       ∧ temp' = (temp * decay)%float
       ∧ (minc ≤ concensus s → s' = s ∧ minc' = minc))
  ∧ (∀ g, holds s g → complete s → (0 < num_cities s)%nat →
          PrimFloat.eqb temp 0 = false →
          ∃ s' minc', anneal_body decay (u, false) (s, temp, minc)
                      = Ok (s', (temp * decay)%float, minc')).
Proof.
  split.
  - intros s' temp' minc' Hrun. unfold anneal_body in Hrun. cbn [fst snd] in Hrun.
    apply bind_Ok_inv in Hrun as ([i j] & Hpick & Hrun).
    apply bind_Ok_inv in Hrun as (s1 & Hflip1 & Hrun).
    apply net_flip_inv in Hflip1 as (g & g1 & Hg & Hflip & ->).
    apply bind_Ok_inv in Hrun as (s2 & Hcalc & Hrun).
    apply calculate_concensus_inv in Hcalc as (g1' & c & _ & _ & ->).
    apply bind_Ok_inv in Hrun as (accepted & Hacc & Hrun).
    unfold accept_change in Hacc.
    destruct (PrimFloat.eqb temp 0); [done|]. inversion Hacc; subst accepted; clear Hacc.
    cbn [negb] in Hrun.
    apply bind_Ok_inv in Hrun as (s3 & Hflip2 & Hrun).
    apply net_flip_inv in Hflip2 as (g1'' & g' & Hg1 & Hflip' & ->).
    assert (net s < length (store s))%nat as Hlt by (by eapply lookup_lt_Some).
    simpl in Hg1. rewrite list_lookup_insert_eq in Hg1 by done.
    inversion Hg1; subst g1''; clear Hg1.
    rewrite (flip_twice _ _ _ _ Hflip) in Hflip'. inversion Hflip'; subst g'; clear Hflip'.
    simpl in Hrun.
    rewrite list_insert_insert_eq in Hrun.
    rewrite (list_insert_id (store s) (net s) g Hg) in Hrun.
    exists g, i, j, g1. repeat (split; [done|]).
    split; [intros p; by apply flip_on|]. split; [by eapply flip_twice|].
    case_bool_decide as Hlow.
    + unfold snapshot, deref in Hrun. simpl in Hrun. rewrite Hg in Hrun. simpl in Hrun.
      inversion Hrun; subst; clear Hrun. simpl.
      split; [by rewrite lookup_app_l|]. do 2 (split; [done|]). lia.
    + inversion Hrun; subst; clear Hrun. simpl.
      do 3 (split; [done|]). intros _. split; [|done]. by destruct s.
  - intros g Hh Hc Hn Hnz.
    destruct (anneal_body_ready s g (u, false) temp decay minc Hh Hc Hn Hnz)
      as (s' & _ & m' & Hrun & _).
    eauto.
Qed.

Lemma rejected_flip_restores_state_witness :
  ∃ s' minc', anneal_body 0.95 (3%nat, false) (two_city_tsp swapped, 100%float, 0)
              = Ok (s', (100 * 0.95)%float, minc').
Proof.
  refine (proj2 (rejected_flip_restores_state (two_city_tsp swapped) 3 100 0.95 0)
                swapped _ _ _ _).
  - split; [reflexivity|]. split; [|reflexivity]. split; [reflexivity|].
    repeat constructor.
  - reflexivity.
  - simpl. lia.
  - reflexivity.
Defined.





(** ** The best net and the live net *)

(** After construction and after every pass the two fields hold one
    address: [self.min_net = self.net] and [self.net = self.min_net] copy
    the reference, not the cells. *)
Lemma pass_ends_aliased s temp min_temp decay draws s' rest :
  __find_optimal_path s temp min_temp decay draws = Some (Ok (s', rest)) →
  net s' = min_net s'.
Proof.
  unfold __find_optimal_path. intros H.
  destruct (anneal_loop _ _ _ _ _) as [[[[[s1 t1] n1] r1]|e]|]; [|done..].
  by inversion H.
Qed.

(** C2 is violated by the code. The solver over two cities starts with all
    cells off. The first pass (one iteration at [T0 = Tmin = 100]) accepts
    the flip of cell (0, 0), which lowers the consensus to -1, and copies
    the net: the best net is [[on, off], [off, off]]. The pass ends with
    [self.net = self.min_net], so the retry pass flips cells of that very
    object: once the flip of cell (0, 1) is accepted (consensus 1, no new
    minimum), the best net reads [[on, on], [off, off]]. The same run
    through [find_optimal_path] ends in that state. *)
Theorem best_net_altered_by_later_flip :
  ∃ s0 s1 s2,
    __init__ 3 1 two_cities all_off = Ok s0
    ∧ min_net s0 = net s0
    ∧ __find_optimal_path s0 100 100 0.95 [(0%nat, true)] = Some (Ok (s1, []))
    ∧ store s1 !! min_net s1 = Some b_missing
    ∧ concensus s1 = -1
    ∧ net s1 = min_net s1
    ∧ is_valid_path s1 = Ok false
    ∧ __find_optimal_path s1 100 100 0.95 [(1%nat, true)] = Some (Ok (s2, []))
    ∧ min_net s2 = min_net s1
    ∧ store s2 !! min_net s2 = Some a_twice
    ∧ concensus s2 = 1
    ∧ find_optimal_path s0 100 100 0.95 1 [(0%nat, true); (1%nat, true)]
      = Some (Ok s2).
Proof.
  eexists _, _, _.
  split; [vm_compute; reflexivity|].
  split; [reflexivity|].
  split; [vm_compute; reflexivity|].
  split; [reflexivity|].
  split; [reflexivity|].
  split; [reflexivity|].
  split; [vm_compute; reflexivity|].
  split; [vm_compute; reflexivity|].
  split; [reflexivity|].
  split; [reflexivity|].
  split; [reflexivity|].
  vm_compute. reflexivity.
Qed.

(** The same defect from the constructor on: the initial best net is the
    live net itself, and an accepted flip that raises the consensus above
    the minimum rewrites it. *)
Lemma initial_best_net_altered_by_flip :
  ∃ s0 s1,
    __init__ 2 1 one_city all_on = Ok s0
    ∧ min_net s0 = net s0
    ∧ store s0 !! min_net s0 = Some (mkNet 1 [[true]])
    ∧ concensus s0 = -1
    ∧ __find_optimal_path s0 100 100 0.95 [(0%nat, true)] = Some (Ok (s1, []))
    ∧ min_net s1 = min_net s0
    ∧ store s1 !! min_net s1 = Some (mkNet 1 [[false]])
    ∧ concensus s1 = 0.
Proof.
  eexists _, _.
  split; [vm_compute; reflexivity|].
  split; [reflexivity|].
  split; [reflexivity|].
  split; [reflexivity|].
  split; [vm_compute; reflexivity|].
  repeat split; reflexivity.
Qed.

(** ** Validity and path extraction *)

Lemma index_True_None row : index_True row = None ↔ true ∉ row.
Proof.
  induction row as [|b row IH]; simpl.
  - split; [intros _ H; by apply elem_of_nil in H|done].
  - destruct b.
    + split; [done|]. intros H. exfalso. apply H. by left.
    + rewrite fmap_None, IH. rewrite not_elem_of_cons. naive_solver.
Qed.

Lemma index_True_Some row j : index_True row = Some j → row !! j = Some true.
Proof.
  revert j. induction row as [|b row IH]; intros j; simpl; [done|].
  destruct b.
  - by intros [= <-].
  - intros (k & Hk & ->)%fmap_Some. simpl. by apply IH.
Qed.

Lemma index_True_is_Some row : true ∈ row → is_Some (index_True row).
Proof.
  intros H. destruct (index_True row) eqn:E; [eauto|].
  by apply index_True_None in E.
Qed.

Section forM_facts.
Context {A B : Type} (f : A → result B).

Lemma forM_Ok l bs : forM f l = Ok bs ↔ Forall2 (λ a b, f a = Ok b) l bs.
Proof.
  revert bs. induction l as [|a l IH]; intros bs; simpl.
  - split; [intros [= <-]; constructor|by inversion 1].
  - destruct (f a) as [b|e] eqn:Hf; simpl.
    + destruct (forM f l) as [bs'|e] eqn:Hl; simpl.
      * split.
        -- intros [= <-]. constructor; [done|]. by apply IH.
        -- inversion 1 as [|? b' ? bs'' Hb Hbs]; subst.
           apply IH in Hbs. congruence.
      * split; [done|]. inversion 1 as [|? b' ? bs'' Hb Hbs]; subst.
        by apply IH in Hbs.
    + split; [done|]. inversion 1; congruence.
Qed.

Lemma forM_total l : (∀ a, a ∈ l → ∃ b, f a = Ok b) → ∃ bs, forM f l = Ok bs.
Proof.
  induction l as [|a l IH]; intros H; simpl; [eauto|].
  destruct (H a) as [b ->]; [by left|]. simpl.
  destruct IH as [bs ->]; [|simpl; eauto].
  intros a' Ha'. apply H. by right.
Qed.

Lemma forM_raise_only (e : exn) l e' :
  (∀ a e', f a = Raise e' → e' = e) → forM f l = Raise e' → e' = e.
Proof.
  intros Hf. induction l as [|a l IH]; simpl; [done|].
  destruct (f a) as [b|e1] eqn:Hfa; simpl.
  - destruct (forM f l) as [bs|e2]; simpl; [done|]. intros [= <-]. by apply IH.
  - intros [= <-]. by eapply Hf.
Qed.
End forM_facts.

(** A solver with consistent cities names every row of the net it holds. *)
Lemma index_city_map_row s g i row :
  consistent s → holds s g → cells g !! i = Some row →
  ∃ c, index_city_map s !! i = Some c ∧ cities s !! i = Some c.
Proof.
  intros (Hn & Hmap & _) (_ & [Hlen _] & Hdim) Hrow.
  apply lookup_lt_Some in Hrow.
  destruct (lookup_lt_is_Some_2 (cities s) i) as [c Hc]; [lia|].
  exists c. by rewrite Hmap, lookup_map_seq_0.
Qed.

(** C10. For every net in which some row contains no true cell, path
    extraction fails: [city.index(True)] raises (ValueError) at the first
    such row, and [determine_path] returns no path. *)
Theorem determine_path_raises_on_empty_row s g i row :
  consistent s → holds s g →
  cells g !! i = Some row → true ∉ row →
  city_epochs s g = Raise ValueError ∧ determine_path s = Raise ValueError.
Proof.
  intros Hcons Hh Hrow Hnone.
  assert (city_epochs s g = Raise ValueError) as Hce.
  { unfold city_epochs. apply (foldlM_raises _ _ _ _ (i, row)).
    - by apply (elem_of_lookup_imap_2 pair).
    - intros acc. simpl. apply index_True_None in Hnone. by rewrite Hnone.
    - intros acc [i' row'] e' Hin Hraise. simpl in Hraise.
      apply elem_of_lookup_imap_1 in Hin as (k & r & [= -> ->] & Hk).
      destruct (index_True r); simpl in Hraise; [|by inversion Hraise].
      destruct (index_city_map_row s g k r Hcons Hh Hk) as (c & Hc & _).
      by rewrite Hc in Hraise. }
  split; [done|].
  unfold determine_path, deref. destruct Hh as (Hg & _). rewrite Hg. simpl.
  by rewrite Hce.
Qed.

Lemma determine_path_raises_on_empty_row_witness :
  city_epochs (two_city_tsp b_missing) b_missing = Raise ValueError
  ∧ determine_path (two_city_tsp b_missing) = Raise ValueError.
Proof.
  apply (determine_path_raises_on_empty_row
           (two_city_tsp b_missing) b_missing 1 [false; false]).
  - split; [reflexivity|]. split; [reflexivity|]. repeat constructor; set_solver.
  - split; [reflexivity|]. split; [|reflexivity]. split; [reflexivity|].
    repeat constructor.
  - reflexivity.
  - set_solver.
Defined.

(** The dictionary of first epochs, when every row has a true cell: city
    [i] is mapped to the first true column of row [i]. *)
Lemma city_epochs_Ok s g :
  consistent s → holds s g → Forall (λ row, true ∈ row) (cells g) →
  ∃ ced, city_epochs s g = Ok ced ∧
         ∀ c e, ced !! c = Some e
                ↔ ∃ i row, cities s !! i = Some c ∧ cells g !! i = Some row
                           ∧ index_True row = Some e.
Proof.
  intros Hcons Hh Hall.
  set (f := λ (acc : gmap string nat) (ic : nat * list bool),
              epoch ← index_True ic.2 ?! ValueError;
              name ← index_city_map s !! ic.1 ?! KeyError;
              Ok (<[name := epoch]> acc)).
  assert (Hf : ∀ acc i row, cells g !! i = Some row →
            ∃ c e, cities s !! i = Some c ∧ index_True row = Some e
                   ∧ f acc (i, row) = Ok (<[c := e]> acc)).
  { intros acc i row Hrow.
    destruct (index_city_map_row s g i row Hcons Hh Hrow) as (c & Hc & Hc').
    destruct (index_True_is_Some row) as [e He].
    { eapply Forall_forall; [exact Hall|]. by eapply list_elem_of_lookup_2. }
    exists c, e. split; [done|]. split; [done|].
    unfold f. simpl. rewrite He. simpl. by rewrite Hc. }
  assert (HR : Forall (λ ic : nat * list bool, cells g !! ic.1 = Some ic.2)
                      (imap pair (row_iter g))).
  { apply Forall_forall. intros [i row] (k & r & [= -> ->] & Hk)%elem_of_lookup_imap_1.
    done. }
  destruct (foldlM_total f (imap pair (row_iter g)) ∅) as [ced Hced].
  { intros acc [i row] Hin. eapply Forall_forall in HR; [|exact Hin].
    destruct (Hf acc i row HR) as (c & e & _ & _ & ->). eauto. }
  exists ced. split; [exact Hced|].
  destruct Hcons as (_ & _ & Hnd).
  apply (foldlM_invariant_on f
           (λ ic, cells g !! ic.1 = Some ic.2)
           (λ acc, ∀ c e, acc !! c = Some e →
                          ∃ i row, cities s !! i = Some c ∧ cells g !! i = Some row
                                   ∧ index_True row = Some e)
           (λ ic acc, ∀ c e, cities s !! ic.1 = Some c → index_True ic.2 = Some e →
                             acc !! c = Some e)) in Hced; [|done|..].
  - destruct Hced as [Hfrom Hto]. intros c e. split; [apply Hfrom|].
    intros (i & row & Hc & Hrow & He).
    apply (Hto (i, row)); [|done..]. by apply (elem_of_lookup_imap_2 pair).
  - intros acc [i row] acc' Hrow HP Hrun. simpl in Hrow.
    destruct (Hf acc i row Hrow) as (c & e & Hc & He & Hrun').
    rewrite Hrun' in Hrun. inversion Hrun; subst; clear Hrun. split.
    + intros c' e'. rewrite lookup_insert. case_decide as Heq.
      * intros [= <-]. subst. eauto.
      * apply HP.
    + simpl. intros c' e' Hc' He'.
      assert (c' = c) as -> by congruence. assert (e' = e) as -> by congruence.
      apply lookup_insert_eq.
  - intros acc [i row] [i' row'] acc' Hrow Hrow' HP HQ Hrun c e Hc He.
    simpl in *.
    destruct (Hf acc i' row' Hrow') as (c' & e' & Hc' & He' & Hrun').
    rewrite Hrun' in Hrun. inversion Hrun; subst; clear Hrun.
    rewrite lookup_insert. case_decide as Heq.
    + subst. assert (i' = i) as -> by (by eapply NoDup_lookup). congruence.
    + by apply HQ.
  - intros c e. by rewrite lookup_empty.
Qed.

(** The inverted dictionary: each of its entries inverts one of the given
    dictionary, and every value of the given dictionary is a key of it. *)
Lemma invert_spec (d : gmap string nat) :
  (∀ e c, invert d !! e = Some c → d !! c = Some e)
  ∧ (∀ c e, d !! c = Some e → is_Some (invert d !! e)).
Proof.
  unfold invert.
  assert (H : ∀ (l : list (string * nat)) (acc : gmap nat string),
    (∀ e c, foldl (λ acc kv, <[kv.2 := kv.1]> acc) acc l !! e = Some c →
            (c, e) ∈ l ∨ acc !! e = Some c)
    ∧ (∀ e, (is_Some (acc !! e) ∨ ∃ c, (c, e) ∈ l) →
            is_Some (foldl (λ acc kv, <[kv.2 := kv.1]> acc) acc l !! e))).
  { induction l as [|[k v] l IH]; intros acc; simpl.
    - split; [auto|]. intros e [?|[c Hc]]; [done|]. by apply elem_of_nil in Hc.
    - destruct (IH (<[v := k]> acc)) as [IH1 IH2]. split.
      + intros e c Hec. destruct (IH1 e c Hec) as [?|Hin]; [left; by right|].
        rewrite lookup_insert in Hin. case_decide; [|by right].
        left. apply elem_of_cons. left. congruence.
      + intros e Hsome. apply IH2.
        destruct (decide (v = e)) as [->|Hne].
        * left. rewrite lookup_insert_eq. eauto.
        * rewrite lookup_insert_ne by done.
          destruct Hsome as [?|[c [Heq|Hc]%elem_of_cons]]; [by left|congruence|].
          right. by exists c. }
  destruct (H (map_to_list d) ∅) as [H1 H2]. split.
  - intros e c Hec. destruct (H1 e c Hec) as [Hin|Hemp].
    + by apply elem_of_map_to_list in Hin.
    + by rewrite lookup_empty in Hemp.
  - intros c e Hce. apply H2. right. exists c. by apply elem_of_map_to_list.
Qed.

(** As many numbers as positions, one of them twice: some position's
    number is missing. *)
Lemma repeated_epoch_misses_one (es : list nat) i1 i2 e :
  i1 ≠ i2 → es !! i1 = Some e → es !! i2 = Some e →
  ¬ ∀ j, (j < length es)%nat → j ∈ es.
Proof.
  intros Hne H1 H2 Hall.
  assert (seq 0 (length es) ≡ₚ es) as Hperm.
  { apply submseteq_length_Permutation; [|by rewrite length_seq].
    apply NoDup_submseteq; [apply NoDup_seq|].
    intros j Hj%elem_of_seq. apply Hall. lia. }
  assert (NoDup es) as Hnd by (rewrite <-Hperm; apply NoDup_seq).
  apply Hne. by eapply NoDup_lookup.
Qed.

(** The cities of a successful second loop of [determine_path]. *)
Lemma path_lookup (ecd : gmap nat string) n path :
  forM (λ i, ecd !! i ?! KeyError) (seq 0 n) = Ok path →
  length path = n ∧ ∀ j, (j < n)%nat → ∃ c, path !! j = Some c ∧ ecd !! j = Some c.
Proof.
  intros H%forM_Ok. split.
  - apply Forall2_length in H. by rewrite length_seq in H.
  - intros j Hj.
    destruct (Forall2_lookup_l _ _ _ j j H) as (c & Hc & Hec).
    { by apply lookup_seq_lt. }
    exists c. split; [done|]. by eapply or_raise_Ok.
Qed.

(** C6 (as amended). For every net in which every row has a true cell but
    two rows share their first true epoch, the first loop of
    [determine_path] completes and maps both cities to that epoch, the
    inverted dictionary keeps a single city for it, and the extraction then
    raises the lookup error (KeyError) at an epoch that no row starts at:
    no path is returned. *)
Theorem determine_path_raises_on_shared_epoch s g i1 i2 r1 r2 e :
  consistent s → holds s g → Forall (λ row, true ∈ row) (cells g) →
  i1 ≠ i2 → cells g !! i1 = Some r1 → cells g !! i2 = Some r2 →
  index_True r1 = Some e → index_True r2 = Some e →
  ∃ ced c1 c2 c,
    city_epochs s g = Ok ced
    ∧ cities s !! i1 = Some c1 ∧ cities s !! i2 = Some c2 ∧ c1 ≠ c2
    ∧ ced !! c1 = Some e ∧ ced !! c2 = Some e
    ∧ invert ced !! e = Some c
    ∧ determine_path s = Raise KeyError.
Proof.
  intros Hcons Hh Hall Hne Hr1 Hr2 He1 He2.
  destruct (city_epochs_Ok s g Hcons Hh Hall) as (ced & Hced & Hspec).
  destruct (index_city_map_row s g i1 r1 Hcons Hh Hr1) as (c1 & _ & Hc1).
  destruct (index_city_map_row s g i2 r2 Hcons Hh Hr2) as (c2 & _ & Hc2).
  assert (ced !! c1 = Some e) as Hced1 by (apply Hspec; eauto).
  assert (ced !! c2 = Some e) as Hced2 by (apply Hspec; eauto).
  destruct (invert_spec ced) as [Hinv1 Hinv2].
  destruct (Hinv2 c1 e Hced1) as [c Hc].
  exists ced, c1, c2, c. repeat (split; [done|]).
  split.
  { intros ->. apply Hne. destruct Hcons as (_ & _ & Hnd). by eapply NoDup_lookup. }
  repeat (split; [done|]).
  destruct Hh as (Hg & [Hlen _] & Hdim).
  unfold determine_path, deref. rewrite Hg. simpl. rewrite Hced. simpl.
  destruct (forM _ (seq 0 (num_cities s))) as [path|e'] eqn:Hpath; simpl.
  - exfalso. apply path_lookup in Hpath as [_ Hpath].
    apply (repeated_epoch_misses_one
             ((λ row, default 0%nat (index_True row)) <$> cells g) i1 i2 e Hne).
    + by rewrite list_lookup_fmap, Hr1; simpl; rewrite He1.
    + by rewrite list_lookup_fmap, Hr2; simpl; rewrite He2.
    + rewrite length_fmap. intros j Hj.
      destruct (Hpath j) as (c' & _ & Hc'); [lia|].
      apply Hinv1, Hspec in Hc' as (i & row & _ & Hrow & Hrow').
      apply list_elem_of_lookup. exists i.
      by rewrite list_lookup_fmap, Hrow; simpl; rewrite Hrow'.
  - f_equal. eapply forM_raise_only; [|exact Hpath].
    intros j e''. apply or_raise_Raise.
Qed.

Lemma determine_path_raises_on_shared_epoch_witness :
  ∃ ced c1 c2 c,
    city_epochs (two_city_tsp same_epoch) same_epoch = Ok ced
    ∧ cities (two_city_tsp same_epoch) !! 0%nat = Some c1
    ∧ cities (two_city_tsp same_epoch) !! 1%nat = Some c2 ∧ c1 ≠ c2
    ∧ ced !! c1 = Some 0%nat ∧ ced !! c2 = Some 0%nat
    ∧ invert ced !! 0%nat = Some c
    ∧ determine_path (two_city_tsp same_epoch) = Raise KeyError.
Proof.
  apply (determine_path_raises_on_shared_epoch
           (two_city_tsp same_epoch) same_epoch 0 1 [true; false] [true; false] 0).
  - split; [reflexivity|]. split; [reflexivity|]. repeat constructor; set_solver.
  - split; [reflexivity|]. split; [|reflexivity]. split; [reflexivity|].
    repeat constructor.
  - repeat constructor.
  - lia.
  - reflexivity.
  - reflexivity.
  - reflexivity.
  - reflexivity.
Defined.

(** C6 (as stated) fails on the net with both cities at epoch 0: the
    extraction does not complete, it raises. *)
Lemma determine_path_same_epoch_raises :
  Forall (λ row, true ∈ row) (cells same_epoch)
  ∧ index_True [true; false] = Some 0%nat
  ∧ ∃ s, __init__ 3 1 two_cities first_column = Ok s
         ∧ store s !! net s = Some same_epoch
         ∧ determine_path s = Raise KeyError.
Proof.
  split; [repeat constructor|]. split; [reflexivity|].
  eexists. split; [vm_compute; reflexivity|]. split; [reflexivity|].
  vm_compute. reflexivity.
Qed.

(** ** Permutation matrices *)

Lemma num_enabled_square g :
  square g → num_enabled g = Ok (length (true_cells g)).
Proof.
  intros Hsq. unfold num_enabled, for_yield, true_cells.
  assert (H : ∀ l n0, (∀ p, p ∈ l → (p.1 < dim g ∧ p.2 < dim g)%nat) →
    foldlM (λ (acc : nat) (p : cell), x ← __getitem__ g p;
                     Ok (if x : bool then (acc + Nat.b2n x)%nat else acc)) n0 l
    = Ok (n0 + length (filter (λ p, on g p) l))%nat).
  { induction l as [|p l IH]; intros n0 Hl; simpl.
    - f_equal. lia.
    - destruct (Hl p) as [Hp1 Hp2]; [by left|].
      rewrite getitem_square by done. simpl. rewrite filter_cons.
      rewrite IH by (intros q Hq; apply Hl; by right).
      destruct (on g p) eqn:Hon; simpl; f_equal; lia. }
  rewrite H; [done|]. intros p. apply elem_of_iter.
Qed.

Lemma elem_of_row_ones g i j :
  j ∈ row_ones g i ↔ on g (i, j) = true ∧ (j < dim g)%nat.
Proof.
  unfold row_ones. rewrite list_elem_of_filter, elem_of_seq, Is_true_true.
  simpl. intuition lia.
Qed.

Lemma elem_of_col_ones g j i :
  i ∈ col_ones g j ↔ on g (i, j) = true ∧ (i < dim g)%nat.
Proof.
  unfold col_ones. rewrite list_elem_of_filter, elem_of_seq, Is_true_true.
  simpl. intuition lia.
Qed.

Lemma length_one_unique {A} (l : list A) x y :
  length l = 1%nat → x ∈ l → y ∈ l → x = y.
Proof.
  destruct l as [|a [|b l]]; try done. intros _.
  rewrite !list_elem_of_singleton. congruence.
Qed.

Lemma length_one_elem {A} (l : list A) : length l = 1%nat → ∃ x, x ∈ l.
Proof. destruct l as [|a l]; [done|]. intros _. exists a. by left. Qed.

Lemma on_true_lookup g i j :
  on g (i, j) = true ↔ ∃ row, cells g !! i = Some row ∧ row !! j = Some true.
Proof.
  unfold on. simpl. split.
  - destruct (cells g !! i) as [row|]; [|done]. simpl.
    destruct (row !! j) as [b|] eqn:Hb; [|done]. simpl. intros ->. eauto.
  - intros (row & -> & Hj). simpl. by rewrite Hj.
Qed.

Lemma length_true_row g i (cols : list nat) :
  length (filter (λ p, on g p) (cols ≫= λ j, [(i, j)]))
  = length (filter (λ j, on g (i, j)) cols).
Proof.
  induction cols as [|j cols IH]; [done|].
  rewrite bind_cons, filter_app, length_app, IH, (filter_cons _ j cols).
  rewrite filter_cons, filter_nil. simpl.
  destruct (decide (on g (i, j))); simpl; lia.
Qed.

Lemma length_true_cells g :
  (∀ i, (i < dim g)%nat → length (row_ones g i) = 1%nat) →
  length (true_cells g) = dim g.
Proof.
  intros Hrows. unfold true_cells, __iter__, range2. rewrite !Nat.sub_0_r.
  assert (H : ∀ rows, (∀ i, i ∈ rows → (i < dim g)%nat) →
    length (filter (λ p, on g p)
              (rows ≫= λ i, seq 0 (dim g) ≫= λ j, [(i, j)])) = length rows).
  { induction rows as [|i rows IH]; intros Hin; [done|].
    rewrite bind_cons, filter_app, length_app, length_true_row.
    rewrite IH by (intros k Hk; apply Hin; by right).
    fold (row_ones g i). rewrite Hrows by (apply Hin; by left). done. }
  rewrite H; [by rewrite length_seq|]. intros i Hi%elem_of_seq. lia.
Qed.

Lemma square_row_length g i row :
  square g → cells g !! i = Some row → (i < dim g)%nat ∧ length row = dim g.
Proof.
  intros [Hlen Hrows] Hrow. split.
  - apply lookup_lt_Some in Hrow. lia.
  - eapply Forall_forall in Hrows; [exact Hrows|]. by eapply list_elem_of_lookup_2.
Qed.

(** In a permutation matrix every row has a true cell, and every epoch is
    the first true epoch of some row. *)
Lemma permutation_matrix_rows g :
  permutation_matrix g → Forall (λ row, true ∈ row) (cells g).
Proof.
  intros (Hsq & Hrows & _). apply Forall_lookup. intros i row Hrow.
  destruct (square_row_length g i row Hsq Hrow) as [Hi _].
  destruct (length_one_elem _ (Hrows i Hi)) as [j [Hon _]%elem_of_row_ones].
  apply on_true_lookup in Hon as (row' & Hrow' & Hj).
  assert (row' = row) as -> by congruence.
  by eapply list_elem_of_lookup_2.
Qed.

Lemma permutation_matrix_epochs g j :
  permutation_matrix g → (j < dim g)%nat →
  ∃ i row, cells g !! i = Some row ∧ index_True row = Some j.
Proof.
  intros (Hsq & Hrows & Hcols) Hj.
  destruct (length_one_elem _ (Hcols j Hj)) as [i [Hon Hi]%elem_of_col_ones].
  pose proof Hon as Hon'.
  apply on_true_lookup in Hon as (row & Hrow & Hrj).
  exists i, row. split; [done|].
  destruct (index_True_is_Some row) as [j' Hj']; [by eapply list_elem_of_lookup_2|].
  rewrite Hj'. f_equal.
  pose proof (index_True_Some _ _ Hj') as Hrj'.
  destruct (square_row_length g i row Hsq Hrow) as [_ Hlen].
  apply (length_one_unique (row_ones g i)); [by apply Hrows| |].
  - apply elem_of_row_ones. split.
    + apply on_true_lookup. eauto.
    + apply lookup_lt_Some in Hrj'. lia.
  - by apply elem_of_row_ones.
Qed.

Lemma forallb_true_in (rows : list (list bool)) :
  Forall (λ row, true ∈ row) rows →
  forallb (λ city, bool_decide (true ∈ city)) rows = true.
Proof.
  induction 1 as [|row rows Hrow _ IH]; [done|]. simpl.
  by rewrite bool_decide_true, IH.
Qed.

(** C4 (as amended). For every net over [N >= 1] cities that is a
    permutation matrix, held as both the live and the best net,
    [is_valid_path] returns true and [determine_path] returns a sequence of
    length [N + 1] whose first [N] elements are the [N] cities, each exactly
    once, followed by a repeat of the first city. *)
Theorem permutation_matrix_closed_tour s g :
  consistent s →
  store s !! net s = Some g → store s !! min_net s = Some g →
  dim g = num_cities s → permutation_matrix g → (0 < num_cities s)%nat →
  is_valid_path s = Ok true
  ∧ ∃ path, determine_path s = Ok path
            ∧ length path = S (num_cities s)
            ∧ take (num_cities s) path ≡ₚ cities s
            ∧ path !! 0%nat = path !! num_cities s.
Proof.
  intros Hcons Hg Hm Hdim Hperm Hn.
  pose proof Hperm as (Hsq & Hrows & Hcols).
  assert (holds s g) as Hh by done.
  pose proof (permutation_matrix_rows g Hperm) as Hall.
  split.
  - unfold is_valid_path, deref. rewrite Hg. simpl.
    rewrite (num_enabled_square g Hsq). simpl.
    rewrite (length_true_cells g Hrows), bool_decide_true by done.
    rewrite Hm. simpl. by rewrite forallb_true_in.
  - destruct (city_epochs_Ok s g Hcons Hh Hall) as (ced & Hced & Hspec).
    destruct (invert_spec ced) as [Hinv1 Hinv2].
    destruct (forM_total (λ i, invert ced !! i ?! KeyError) (seq 0 (num_cities s)))
      as [path Hpath].
    { intros j Hj%elem_of_seq.
      destruct (permutation_matrix_epochs g j Hperm) as (i & row & Hrow & Hrj); [lia|].
      destruct (index_city_map_row s g i row Hcons Hh Hrow) as (c & _ & Hc).
      destruct (Hinv2 c j) as [c' Hc']; [apply Hspec; eauto|].
      rewrite Hc'. simpl. eauto. }
    pose proof (path_lookup _ _ _ Hpath) as [Hlen Hlook].
    destruct (Hlook 0%nat Hn) as (first & Hfirst & _).
    exists (path ++ [first]).
    split.
    { unfold determine_path, deref. rewrite Hg. simpl. rewrite Hced. simpl.
      rewrite Hpath. simpl. by rewrite Hfirst. }
    split; [rewrite length_app; simpl; lia|].
    split.
    + rewrite take_app_length' by done.
      destruct Hcons as (Hnc & _ & Hnd).
      apply submseteq_length_Permutation; [|lia].
      apply NoDup_submseteq.
      * apply NoDup_alt. intros j1 j2 c Hj1 Hj2.
        pose proof (lookup_lt_Some _ _ _ Hj1) as Hlt1.
        pose proof (lookup_lt_Some _ _ _ Hj2) as Hlt2.
        destruct (Hlook j1) as (c1 & Hc1 & Hi1); [lia|].
        destruct (Hlook j2) as (c2 & Hc2 & Hi2); [lia|].
        apply Hinv1 in Hi1, Hi2. congruence.
      * intros c (j & Hj)%list_elem_of_lookup.
        pose proof (lookup_lt_Some _ _ _ Hj) as Hlt.
        destruct (Hlook j) as (c' & Hc' & Hi); [lia|].
        assert (c' = c) as -> by congruence.
        apply Hinv1, Hspec in Hi as (i & row & Hc & _).
        by eapply list_elem_of_lookup_2.
    + rewrite lookup_app_l by lia. rewrite Hfirst.
      rewrite lookup_app_r by lia. by replace (num_cities s - length path)%nat with 0%nat by lia.
Qed.

Lemma permutation_matrix_closed_tour_witness :
  is_valid_path (two_city_tsp swapped) = Ok true
  ∧ ∃ path, determine_path (two_city_tsp swapped) = Ok path
            ∧ length path = 3%nat
            ∧ take 2 path ≡ₚ ["A"; "B"]%string
            ∧ path !! 0%nat = path !! 2%nat.
Proof.
  apply (permutation_matrix_closed_tour (two_city_tsp swapped) swapped).
  - split; [reflexivity|]. split; [reflexivity|]. repeat constructor; set_solver.
  - reflexivity.
  - reflexivity.
  - reflexivity.
  - split; [|split].
    + split; [reflexivity|]. repeat constructor.
    + intros i Hi. simpl in Hi. destruct i as [|[|i]]; [reflexivity|reflexivity|lia].
    + intros j Hj. simpl in Hj. destruct j as [|[|j]]; [reflexivity|reflexivity|lia].
  - simpl. lia.
Defined.

(** C4 (as stated) fails for no cities: the empty net is a permutation
    matrix and is valid, but the extraction has no first city to repeat
    and raises. *)
Lemma no_cities_no_tour :
  permutation_matrix no_cells
  ∧ ∃ s, __init__ 3 1 ∅ all_off = Ok s
         ∧ store s !! net s = Some no_cells
         ∧ store s !! min_net s = Some no_cells
         ∧ is_valid_path s = Ok true
         ∧ determine_path s = Raise IndexError.
Proof.
  split.
  - split; [split; [reflexivity|constructor]|]. split; intros k Hk; simpl in Hk; lia.
  - eexists. split; [vm_compute; reflexivity|]. repeat split; reflexivity.
Qed.

(** * Further properties of the solver *)

(** ** Picking a cell *)

(** X1. [pick_random_net_indices] raises on a solver without cities, otherwise
    returns a position on the net, and every position of the net is the
    outcome of some draw. *)
Theorem pick_random_net_indices_covers_net s :
  (num_cities s = 0%nat → ∀ u, pick_random_net_indices s u = Raise ValueError)
  ∧ (∀ u i j, pick_random_net_indices s u = Ok (i, j) →
              (i < num_cities s)%nat ∧ (j < num_cities s)%nat)
  ∧ (∀ i j, (i < num_cities s)%nat → (j < num_cities s)%nat →
            pick_random_net_indices s (i * num_cities s + j) = Ok (i, j)).
Proof.
  unfold pick_random_net_indices. split; [|split].
  - intros -> u. done.
  - intros u i j. case_bool_decide as Hz; [done|]. intros [= <- <-].
    assert (0 < num_cities s)%nat by nia. split.
    + apply Nat.Div0.div_lt_upper_bound. apply Nat.mod_upper_bound. nia.
    + apply Nat.mod_upper_bound. lia.
  - intros i j Hi Hj. rewrite bool_decide_false by nia.
    rewrite (Nat.mod_small (i * num_cities s + j)) by nia.
    assert ((i * num_cities s + j) / num_cities s = i)%nat as ->.
    { rewrite Nat.div_add_l by lia. rewrite Nat.div_small by done. lia. }
    assert ((i * num_cities s + j) mod num_cities s = j)%nat as ->; [|done].
    rewrite (Nat.add_comm (i * num_cities s)), Nat.Div0.mod_add.
    by apply Nat.mod_small.
Qed.

(** ** The distance table, further *)

Section foldlM_total_facts.
Context {A B : Type} (f : A → B → result A).

(** A loop whose body succeeds under an invariant it keeps succeeds. *)
Lemma foldlM_total_inv (P : A → Prop) l a :
  P a → (∀ a b, b ∈ l → P a → ∃ a', f a b = Ok a' ∧ P a') →
  ∃ a', foldlM f a l = Ok a' ∧ P a'.
Proof.
  revert a. induction l as [|b l IH]; intros a HP H; simpl; [eauto|].
  destruct (H a b) as (a1 & -> & HP1); [by left|done|]. simpl.
  apply IH; [done|]. intros a2 b2 Hb2. apply H. by right.
Qed.
(** A loop all of whose failures on its elements raise [e] can only raise
    [e]. *)
Lemma foldlM_raise_only_in (e : exn) l a e' :
  (∀ a b e', b ∈ l → f a b = Raise e' → e' = e) →
  foldlM f a l = Raise e' → e' = e.
Proof.
  revert a. induction l as [|b l IH]; intros a Hf Hrun; simpl in Hrun; [done|].
  destruct (f a b) as [a1|e1] eqn:E; simpl in Hrun.
  - eapply IH; [|exact Hrun]. intros a2 b2 e2 Hb2. apply Hf. by right.
  - inversion Hrun; subst. eapply Hf; [|exact E]. by left.
Qed.
End foldlM_total_facts.

Lemma fill_entry_total raw city city_entry d :
  completes raw d → city ∈ dom raw → city_entry ∈ dom raw →
  (city ≠ city_entry →
   is_Some (entry raw city city_entry) ∨ is_Some (entry raw city_entry city)) →
  ∃ d', fill_entry city city_entry d = Ok d' ∧ completes raw d'.
Proof.
  intros Hc Hcity Hentry Hgiven.
  destruct (fill_entry city city_entry d) as [d'|e] eqn:Hrun.
  - exists d'. split; [done|]. by eapply fill_entry_completes.
  - exfalso. destruct Hc as (Hdom & Hkeep & _).
    unfold fill_entry in Hrun.
    rewrite <-Hdom in Hcity, Hentry.
    apply elem_of_dom in Hentry as [row Hrow]. rewrite Hrow in Hrun. simpl in Hrun.
    destruct (row !! city) as [w|] eqn:Hw.
    { by rewrite bool_decide_false in Hrun. }
    rewrite bool_decide_true in Hrun by done. simpl in Hrun.
    case_bool_decide as Hne; [|done].
    destruct (Hgiven Hne) as [[v Hv]|[v Hv]]; apply Hkeep in Hv; unfold entry in Hv.
    + destruct (d !! city) as [row'|]; [|done]. simpl in *. by rewrite Hv in Hrun.
    + rewrite Hrow in Hv. simpl in Hv. congruence.
Qed.

(** X2. The import succeeds exactly when every two different cities have a
    distance in at least one direction. *)
Theorem import_distances_succeeds_iff raw :
  (∃ imp, import_distances raw = Ok imp)
  ↔ (∀ x y, x ∈ dom raw → y ∈ dom raw → x ≠ y →
            is_Some (entry raw x y) ∨ is_Some (entry raw y x)).
Proof.
  split.
  - intros [imp Himp] x y Hx Hy Hne.
    apply import_distances_Ok in Himp as ((_ & _ & Hfrom) & Hall & _).
    destruct (Hall x y Hx Hy Hne) as [v Hv].
    destruct (Hfrom _ _ _ Hv) as [?|[_ ?]]; eauto.
  - intros Hgiven. unfold import_distances, fill_distances.
    destruct (foldlM_total_inv
      (λ d1 city, foldlM (λ d2 city_entry, fill_entry city city_entry d2) d1 (keys raw))
      (completes raw) (merge_sort String.le (keys raw)) raw) as (d & -> & _).
    + apply completes_refl.
    + intros d1 city Hcity%elem_of_sorted_keys Hc1.
      apply (foldlM_total_inv (λ d2 city_entry, fill_entry city city_entry d2)
               (completes raw)); [done|].
      intros d2 city_entry Hentry%elem_of_keys Hc2.
      apply fill_entry_total; auto.
    + simpl. eauto.
Qed.



(** X4. The cities of a successful import are the keys of the file, each once,
    in sorted order; [num_cities] is their number and [index_city_map]
    numbers them in that order. *)
Theorem import_distances_cities_sorted raw imp :
  import_distances raw = Ok imp →
  Sorted String.le (i_cities imp)
  ∧ NoDup (i_cities imp)
  ∧ (∀ c, c ∈ i_cities imp ↔ c ∈ dom raw)
  ∧ i_num_cities imp = size raw
  ∧ (∀ i, i_index_city_map imp !! i = i_cities imp !! i).
Proof.
  intros Himp.
  pose proof (import_distances_Ok raw imp Himp) as (_ & _ & Hperm & Hnd & Hlen & Hmap).
  unfold import_distances in Himp.
  destruct (fill_distances _ _ raw) as [d|e]; [|done]. simpl in Himp.
  inversion Himp; subst; clear Himp. simpl in *.
  split; [apply Sorted_merge_sort; apply _|]. split; [done|].
  split; [intros c; apply elem_of_sorted_keys|]. split.
  - rewrite Hperm. unfold keys. by rewrite length_fmap, length_map_to_list.
  - intros i. apply lookup_map_seq_0.
Qed.

Lemma import_distances_cities_sorted_witness :
  ∃ imp, import_distances two_cities = Ok imp
         ∧ Sorted String.le (i_cities imp)
         ∧ NoDup (i_cities imp)
         ∧ (∀ c, c ∈ i_cities imp ↔ c ∈ dom two_cities)
         ∧ i_num_cities imp = size two_cities
         ∧ (∀ i, i_index_city_map imp !! i = i_cities imp !! i).
Proof.
  destruct (import_distances two_cities) as [imp|e] eqn:Himp; [|by vm_compute in Himp].
  exists imp. split; [done|].
  exact (import_distances_cities_sorted two_cities imp Himp).
Defined.

(** ** Nets, further *)

Lemma length_filter_toggle {A} `{EqDecision A} (P Q : A → bool) (l : list A) p :
  NoDup l → p ∈ l →
  (∀ x, Q x = if decide (x = p) then negb (P x) else P x) →
  if P p
  then length (filter (λ x, P x) l) = S (length (filter (λ x, Q x) l))
  else length (filter (λ x, Q x) l) = S (length (filter (λ x, P x) l)).
Proof.
  intros Hnd Hp HQ.
  assert (Hout : ∀ l' : list A, p ∉ l' →
            filter (λ x, Q x) l' = filter (λ x, P x) l').
  { induction l' as [|x l' IH']; intros Hnot; [done|].
    apply not_elem_of_cons in Hnot as [Hne Hnot].
    rewrite !filter_cons, IH' by done. rewrite (HQ x).
    by rewrite (decide_False (P := x = p)) by congruence. }
  induction Hnd as [|x l Hx Hnd IH]; [by apply elem_of_nil in Hp|].
  rewrite !filter_cons.
  apply elem_of_cons in Hp as [<-|Hp].
  - rewrite (Hout l Hx). rewrite (HQ p), (decide_True (P := p = p)) by done.
    destruct (P p); simpl; done.
  - assert (x ≠ p) as Hne by (intros ->; done).
    specialize (IH Hp). rewrite (HQ x), (decide_False (P := x = p)) by done.
    destruct (P p); destruct (P x); simpl; lia.
Qed.

(** X5. A flip on the net succeeds, keeps the net square and changes the number
    of enabled cells by exactly one: one fewer when the cell was enabled,
    one more when it was not. *)
Theorem flip_changes_count_by_one g i j :
  square g → (i < dim g)%nat → (j < dim g)%nat →
  ∃ g1 n n1,
    flip g i j = Ok g1 ∧ square g1 ∧ dim g1 = dim g
    ∧ num_enabled g = Ok n ∧ num_enabled g1 = Ok n1
    ∧ (if on g (i, j) then n = S n1 else n1 = S n).
Proof.
  intros Hsq Hi Hj.
  destruct (flip_square g i j Hsq Hi Hj) as (g1 & Hflip & Hsq1 & Hdim1).
  exists g1, (length (true_cells g)), (length (true_cells g1)).
  split; [done|]. split; [done|]. split; [done|].
  split; [by apply num_enabled_square|]. split; [by apply num_enabled_square|].
  unfold true_cells, __iter__. rewrite Hdim1.
  apply (length_filter_toggle (on g) (on g1) _ (i, j)).
  - apply NoDup_range2.
  - apply elem_of_range2. simpl. lia.
  - intros p. by apply flip_on.
Qed.

Lemma flip_changes_count_by_one_witness :
  ∃ g1 n n1,
    flip swapped 0 0 = Ok g1 ∧ square g1 ∧ dim g1 = dim swapped
    ∧ num_enabled swapped = Ok n ∧ num_enabled g1 = Ok n1
    ∧ (if on swapped (0, 0)%nat then n = S n1 else n1 = S n).
Proof.
  apply (flip_changes_count_by_one swapped 0 0).
  - split; [reflexivity|]. repeat constructor.
  - simpl. lia.
  - simpl. lia.
Defined.

(** X6. On a square net, reading or flipping a cell at a position given by two
    non-negative indices raises (IndexError) exactly when the position is
    off the net. *)
Theorem off_net_access_raises g i j :
  square g →
  (__getitem__ g (i, j) = Raise IndexError ↔ ¬ (i < dim g ∧ j < dim g)%nat)
  ∧ (flip g i j = Raise IndexError ↔ ¬ (i < dim g ∧ j < dim g)%nat).
Proof.
  intros Hsq.
  assert (Hin : (i < dim g ∧ j < dim g)%nat →
                (∃ b, __getitem__ g (i, j) = Ok b) ∧ ∃ g1, flip g i j = Ok g1).
  { intros [Hi Hj]. split.
    - rewrite getitem_square by done. eauto.
    - destruct (flip_square g i j Hsq Hi Hj) as (g1 & -> & _). eauto. }
  assert (Hout : ¬ (i < dim g ∧ j < dim g)%nat →
                 __getitem__ g (i, j) = Raise IndexError
                 ∧ flip g i j = Raise IndexError).
  { intros Hnot. unfold __getitem__, flip. simpl.
    destruct (cells g !! i) as [row|] eqn:Hrow; simpl; [|done].
    destruct (square_row_length g i row Hsq Hrow) as [Hi Hlen].
    rewrite (lookup_ge_None_2 row j) by lia. done. }
  split; split.
  - intros Hraise Hboth. destruct (Hin Hboth) as [[b Hb] _]. congruence.
  - intros Hnot. apply (Hout Hnot).
  - intros Hraise Hboth. destruct (Hin Hboth) as [_ [g1 Hg1]]. congruence.
  - intros Hnot. apply (Hout Hnot).
Qed.

Lemma off_net_access_raises_witness :
  (__getitem__ swapped (2, 0)%nat = Raise IndexError
     ↔ ¬ (2 < dim swapped ∧ 0 < dim swapped)%nat)
  ∧ (flip swapped 2 0 = Raise IndexError ↔ ¬ (2 < dim swapped ∧ 0 < dim swapped)%nat).
Proof.
  apply (off_net_access_raises swapped 2 0).
  split; [reflexivity|]. repeat constructor.
Defined.


(** ** The consensus, further *)

Lemma lookup_weight_KeyError s i j e : lookup_weight s i j = Raise e → e = KeyError.
Proof.
  unfold lookup_weight. intros H.
  destruct (index_city_map s !! i) as [a|]; simpl in H; [|by inversion H].
  destruct (distances s !! a) as [row|]; simpl in H; [|by inversion H].
  destruct (index_city_map s !! j) as [b|]; simpl in H; [|by inversion H].
  destruct (row !! b); simpl in H; [done|by inversion H].
Qed.

Lemma calculate_weight_KeyError s c e c' e' err :
  calculate_weight s c e c' e' = Raise err → err = KeyError.
Proof.
  unfold calculate_weight. repeat case_bool_decide; try done.
  apply lookup_weight_KeyError.
Qed.

(** X8. A net without enabled cells has consensus 0, whatever the distance
    table holds: no weight is computed. *)
Theorem concensus_of_no_enabled_cell s g :
  square g → true_cells g = [] → concensus_of s g = Ok 0.
Proof.
  intros Hsq Hnone. unfold concensus_of, for_yield.
  rewrite (foldlM_Zsum2 _ (λ _, 0) (λ _, 0)).
  - simpl. by rewrite !Zsum_const.
  - intros [w b] A HA. pose proof HA as [HA1 HA2]%elem_of_iter.
    rewrite getitem_square by done. simpl.
    destruct (on g A) eqn:Hon.
    + assert (A ∈ true_cells g) as Hin by (by apply elem_of_true_cells).
      rewrite Hnone in Hin. by apply elem_of_nil in Hin.
    + do 2 f_equal; lia.
Qed.

Lemma concensus_of_no_enabled_cell_witness :
  concensus_of (two_city_tsp (Net_init 2 all_off)) (Net_init 2 all_off) = Ok 0.
Proof.
  apply (concensus_of_no_enabled_cell (two_city_tsp (Net_init 2 all_off))
           (Net_init 2 all_off)).
  - split; [reflexivity|]. repeat constructor.
  - reflexivity.
Defined.



(** X10. The weight is computed for every scanned cell, enabled or not: when a
    city is enabled at an epoch that is not the last one and its distance to
    some other city is missing, the consensus raises the lookup error. *)
Theorem concensus_of_raises_on_missing_distance s g c e c' :
  square g → dim g = num_cities s →
  on g (c, e) = true → (c < dim g)%nat → (S e < dim g)%nat →
  (c' < dim g)%nat → c ≠ c' →
  lookup_weight s c c' = Raise KeyError →
  concensus_of s g = Raise KeyError.
Proof.
  intros Hsq Hdim Hon Hc He Hc' Hne Hmiss.
  unfold concensus_of, for_yield.
  rewrite (foldlM_raises _ KeyError _ _ (c, e)); [done|..].
  - apply elem_of_iter. simpl. lia.
  - intros [w b]. rewrite getitem_square by (simpl; done || lia).
    rewrite Hon. simpl.
    rewrite (foldlM_raises _ KeyError _ _ (c', S e)); [done|..].
    + apply elem_of_square_iter. simpl. lia.
    + intros acc. rewrite getitem_square by (simpl; done || lia). simpl.
      unfold calculate_weight.
      rewrite bool_decide_false by done. rewrite bool_decide_false by lia.
      rewrite bool_decide_true by lia. by rewrite Hmiss.
    + intros acc B err [HB1 HB2]%elem_of_square_iter.
      rewrite getitem_square by (done || lia). simpl.
      destruct (calculate_weight s c e B.1 B.2) as [v|err'] eqn:Hw; simpl; [done|].
      intros [= <-]. by eapply calculate_weight_KeyError.
  - intros [w b] A err [HA1 HA2]%elem_of_iter.
    rewrite getitem_square by done. simpl.
    destruct (on g A); [|done].
    destruct (foldlM _ w (square_iter g 0 A.2 None None)) as [w'|err'] eqn:Hin;
      simpl; [done|].
    intros [= <-]. eapply foldlM_raise_only_in; [|exact Hin].
    intros acc B err'' [HB1 HB2]%elem_of_square_iter. simpl.
    rewrite getitem_square by (done || lia). simpl.
    destruct (calculate_weight s A.1 A.2 B.1 B.2) as [v|err4] eqn:Hw; simpl; [done|].
    intros [= <-]. by eapply calculate_weight_KeyError.
Qed.

Lemma concensus_of_raises_on_missing_distance_witness :
  concensus_of (set_store (mkTsp two_strangers ["A"; "B"]%string 2
                             (map_seq 0 ["A"; "B"]%string) 3 1 [] 0 0 0) [b_missing])
               b_missing
  = Raise KeyError.
Proof.
  apply (concensus_of_raises_on_missing_distance _ b_missing 0 0 1).
  - split; [reflexivity|]. repeat constructor.
  - reflexivity.
  - reflexivity.
  - simpl. lia.
  - simpl. lia.
  - simpl. lia.
  - lia.
  - reflexivity.
Defined.





(** ** Construction, further *)

Lemma on_Net_init n coin i j :
  (i < n)%nat → (j < n)%nat → on (Net_init n coin) (i, j) = coin i j.
Proof.
  intros Hi Hj. unfold on, Net_init. simpl.
  rewrite list_lookup_fmap, lookup_seq_lt by done. simpl.
  by rewrite list_lookup_fmap, lookup_seq_lt.
Qed.

(** X12. What construction establishes: the cities are the keys of the file,
    each once, numbered by the index dictionary; every two different cities
    have a distance; the parameters are stored as given; both net fields
    hold the address of one square net over the cities whose cells are the
    coins; and the stored consensus is the consensus of that net. *)
Theorem init_establishes_solver p b raw coin s :
  __init__ p b raw coin = Ok s →
  consistent s ∧ complete s
  ∧ cities s ≡ₚ keys raw ∧ num_cities s = size raw
  ∧ penalty s = p ∧ bonus s = b
  ∧ min_net s = net s
  ∧ ∃ g, holds s g
         ∧ (∀ i j, (i < size raw)%nat → (j < size raw)%nat → on g (i, j) = coin i j)
         ∧ concensus_of s g = Ok (concensus s).
Proof.
  intros Hinit.
  destruct (import_distances raw) as [imp|e] eqn:Himp;
    [|by rewrite (init_import_Raise _ _ _ _ _ Himp) in Hinit].
  destruct (init_Ok p b raw coin imp Himp)
    as (s0 & Hs0 & Hcons & Hc & Hh & Halias & Hp & Hb & _ & Hcities & Hcon).
  assert (s0 = s) as -> by congruence.
  apply import_distances_Ok in Himp as (_ & _ & Hkeys & _).
  assert (num_cities s = size raw) as Hsize.
  { destruct Hcons as (-> & _). rewrite Hcities, Hkeys. unfold keys.
    by rewrite length_fmap, length_map_to_list. }
  split; [done|]. split; [done|]. split; [by rewrite Hcities|].
  split; [done|]. split; [done|]. split; [done|]. split; [done|].
  exists (Net_init (num_cities s) coin). split; [done|]. split; [|done].
  intros i j Hi Hj. rewrite Hsize. by apply on_Net_init.
Qed.

Lemma init_establishes_solver_witness :
  ∃ s, __init__ 3 1 two_cities diagonal = Ok s
       ∧ consistent s ∧ complete s ∧ num_cities s = size two_cities
       ∧ min_net s = net s.
Proof.
  destruct (__init__ 3 1 two_cities diagonal) as [s|e] eqn:Hinit;
    [|by vm_compute in Hinit].
  exists s. split; [done|].
  destruct (init_establishes_solver 3 1 two_cities diagonal s Hinit)
    as (Hcons & Hc & _ & Hn & _ & _ & Halias & _).
  done.
Defined.


(** ** Validity, further *)

Lemma length_true_cells_sum g :
  length (true_cells g)
  = sum_list ((λ i, length (row_ones g i)) <$> seq 0 (dim g)).
Proof.
  unfold true_cells, __iter__, range2. rewrite !Nat.sub_0_r.
  assert (H : ∀ rows : list nat,
    length (filter (λ p, on g p) (rows ≫= λ i, seq 0 (dim g) ≫= λ j, [(i, j)]))
    = sum_list ((λ i, length (row_ones g i)) <$> rows)).
  { induction rows as [|i rows IH]; [done|].
    rewrite bind_cons, filter_app, length_app, length_true_row, IH. done. }
  apply H.
Qed.

Lemma sum_list_ones (l : list nat) :
  Forall (λ x, 1 ≤ x)%nat l → sum_list l = length l → Forall (λ x, x = 1%nat) l.
Proof.
  intros Hall.
  assert (Hge : ∀ l' : list nat, Forall (λ x, 1 ≤ x)%nat l' →
                                 (length l' ≤ sum_list l')%nat).
  { induction 1 as [|x l' Hx _ IH]; simpl; lia. }
  induction Hall as [|x l Hx Hall IH]; intros Hsum; [constructor|].
  simpl in Hsum. pose proof (Hge l Hall).
  constructor; [lia|]. apply IH. lia.
Qed.

Lemma row_has_true g i row :
  square g → cells g !! i = Some row →
  true ∈ row ↔ (1 ≤ length (row_ones g i))%nat.
Proof.
  intros Hsq Hrow. destruct (square_row_length g i row Hsq Hrow) as [Hi Hlen].
  split.
  - intros (j & Hj)%list_elem_of_lookup.
    assert (j ∈ row_ones g i) as Hin.
    { apply elem_of_row_ones. split; [apply on_true_lookup; eauto|].
      apply lookup_lt_Some in Hj. lia. }
    destruct (row_ones g i); [by apply elem_of_nil in Hin|simpl; lia].
  - intros Hlen1. destruct (row_ones g i) as [|j l] eqn:Hones; [simpl in Hlen1; lia|].
    assert (j ∈ row_ones g i) as [Hon _]%elem_of_row_ones by (rewrite Hones; by left).
    apply on_true_lookup in Hon as (row' & Hrow' & Hj).
    assert (row' = row) as -> by congruence. by eapply list_elem_of_lookup_2.
Qed.

Lemma forallb_true_in_iff (rows : list (list bool)) :
  forallb (λ city, bool_decide (true ∈ city)) rows = true
  ↔ Forall (λ row, true ∈ row) rows.
Proof.
  split; [|apply forallb_true_in].
  induction rows as [|row rows IH]; simpl; [constructor|].
  intros [Hrow Hrows]%andb_true_iff. constructor; [|by apply IH].
  by apply bool_decide_eq_true in Hrow.
Qed.

(** X14. [is_valid_path] never raises on a solver whose two net fields hold one
    square net over its cities, and it answers true exactly when every row
    has exactly one true cell; the columns are not looked at. *)
Theorem is_valid_path_checks_rows_only s g :
  store s !! net s = Some g → store s !! min_net s = Some g →
  square g → dim g = num_cities s →
  ∃ b, is_valid_path s = Ok b
       ∧ (b = true ↔ ∀ i, (i < dim g)%nat → length (row_ones g i) = 1%nat).
Proof.
  intros Hg Hm Hsq Hdim.
  assert (Hrows : Forall (λ row, true ∈ row) (cells g)
                  ↔ ∀ i, (i < dim g)%nat → (1 ≤ length (row_ones g i))%nat).
  { rewrite Forall_lookup. split.
    - intros Hall i Hi. destruct Hsq as [Hlen Hsq'].
      destruct (lookup_lt_is_Some_2 (cells g) i) as [row Hrow]; [lia|].
      eapply row_has_true; [by split|done|]. by eapply Hall.
    - intros Hall i row Hrow.
      destruct (square_row_length g i row Hsq Hrow) as [Hi _].
      eapply row_has_true; [done..|]. by apply Hall. }
  unfold is_valid_path, deref. rewrite Hg. simpl.
  rewrite (num_enabled_square g Hsq). simpl. rewrite Hm. simpl.
  case_bool_decide as Hcount; eexists; (split; [reflexivity|]).
  - unfold row_iter. rewrite forallb_true_in_iff, Hrows. split.
    + intros Hall.
      assert (Forall (λ x, x = 1%nat) ((λ i, length (row_ones g i)) <$> seq 0 (dim g)))
        as Hones.
      { apply sum_list_ones.
        - apply Forall_fmap, Forall_forall. intros i Hi%elem_of_seq. apply Hall. lia.
        - rewrite <-length_true_cells_sum, length_fmap, length_seq. congruence. }
      intros i Hi. rewrite Forall_fmap, Forall_forall in Hones.
      apply (Hones i). apply elem_of_seq. lia.
    + intros Hall i Hi. rewrite Hall by done. lia.
  - split; [done|]. intros Hall. exfalso. apply Hcount.
    rewrite (length_true_cells g Hall). done.
Qed.

Lemma is_valid_path_checks_rows_only_witness :
  ∃ b, is_valid_path (two_city_tsp same_epoch) = Ok b
       ∧ (b = true
          ↔ ∀ i, (i < dim same_epoch)%nat → length (row_ones same_epoch i) = 1%nat).
Proof.
  apply (is_valid_path_checks_rows_only (two_city_tsp same_epoch) same_epoch).
  - reflexivity.
  - reflexivity.
  - split; [reflexivity|]. repeat constructor.
  - reflexivity.
Defined.

(** ** Path extraction, further *)

Lemma city_epochs_rows s g ced :
  consistent s → holds s g → city_epochs s g = Ok ced →
  Forall (λ row, true ∈ row) (cells g).
Proof.
  intros Hcons Hh Hced. apply Forall_lookup. intros i row Hrow.
  destruct (decide (true ∈ row)) as [|Hnone]; [done|]. exfalso.
  assert (city_epochs s g = Raise ValueError) as Hraise; [|congruence].
  unfold city_epochs. apply (foldlM_raises _ _ _ _ (i, row)).
  - by apply (elem_of_lookup_imap_2 pair).
  - intros acc. simpl. apply index_True_None in Hnone. by rewrite Hnone.
  - intros acc [i' row'] e' Hin Hr. simpl in Hr.
    apply elem_of_lookup_imap_1 in Hin as (k & r & [= -> ->] & Hk).
    destruct (index_True r); simpl in Hr; [|by inversion Hr].
    destruct (index_city_map_row s g k r Hcons Hh Hk) as (c & Hc & _).
    by rewrite Hc in Hr.
Qed.

(** The cities read off the inverted dictionary are all the cities, each
    once. *)
Lemma extracted_cities_Permutation s g ced p :
  consistent s → holds s g →
  (∀ c e, ced !! c = Some e
          ↔ ∃ i row, cities s !! i = Some c ∧ cells g !! i = Some row
                     ∧ index_True row = Some e) →
  forM (λ i, invert ced !! i ?! KeyError) (seq 0 (num_cities s)) = Ok p →
  length p = num_cities s ∧ NoDup p ∧ p ≡ₚ cities s.
Proof.
  intros (Hnc & _ & Hnd) Hh Hspec Hp.
  destruct (invert_spec ced) as [Hinv1 _].
  apply path_lookup in Hp as [Hlen Hlook].
  assert (NoDup p) as Hndp.
  { apply NoDup_alt. intros j1 j2 c Hj1 Hj2.
    pose proof (lookup_lt_Some _ _ _ Hj1) as Hlt1.
    pose proof (lookup_lt_Some _ _ _ Hj2) as Hlt2.
    destruct (Hlook j1) as (c1 & Hc1 & Hi1); [lia|].
    destruct (Hlook j2) as (c2 & Hc2 & Hi2); [lia|].
    apply Hinv1 in Hi1, Hi2. congruence. }
  split; [done|]. split; [done|].
  apply submseteq_length_Permutation; [|lia].
  apply NoDup_submseteq; [done|].
  intros c (j & Hj)%list_elem_of_lookup.
  pose proof (lookup_lt_Some _ _ _ Hj) as Hlt.
  destruct (Hlook j) as (c' & Hc' & Hi); [lia|].
  assert (c' = c) as -> by congruence.
  apply Hinv1, Hspec in Hi as (i & row & Hc & _).
  by eapply list_elem_of_lookup_2.
Qed.

Lemma determine_path_inv s g path :
  consistent s → holds s g → determine_path s = Ok path →
  ∃ ced p first,
    city_epochs s g = Ok ced
    ∧ forM (λ i, invert ced !! i ?! KeyError) (seq 0 (num_cities s)) = Ok p
    ∧ p !! 0%nat = Some first ∧ path = p ++ [first].
Proof.
  intros Hcons Hh. unfold determine_path, deref.
  destruct Hh as (Hg & _). rewrite Hg. simpl.
  intros (ced & Hced & H)%bind_Ok_inv.
  apply bind_Ok_inv in H as (p & Hp & H).
  apply bind_Ok_inv in H as (first & Hfirst%or_raise_Ok & [= <-]).
  eauto 10.
Qed.

Lemma determine_path_returns_closed_tour_aux s g path :
  consistent s → holds s g → determine_path s = Ok path →
  (0 < num_cities s)%nat
  ∧ length path = S (num_cities s)
  ∧ take (num_cities s) path ≡ₚ cities s
  ∧ path !! 0%nat = path !! num_cities s.
Proof.
  intros Hcons Hh Hpath.
  destruct (determine_path_inv s g path Hcons Hh Hpath)
    as (ced & p & first & Hced & Hp & Hfirst & ->).
  pose proof (city_epochs_rows s g ced Hcons Hh Hced) as Hall.
  destruct (city_epochs_Ok s g Hcons Hh Hall) as (ced' & Hced' & Hspec).
  assert (ced' = ced) as -> by congruence.
  destruct (extracted_cities_Permutation s g ced p Hcons Hh Hspec Hp)
    as (Hlen & _ & Hperm).
  pose proof (lookup_lt_Some _ _ _ Hfirst) as Hpos.
  split; [lia|]. split; [rewrite length_app; simpl; lia|]. split.
  - by rewrite take_app_length' by done.
  - rewrite lookup_app_l by lia. rewrite Hfirst.
    rewrite lookup_app_r by lia.
    by replace (num_cities s - length p)%nat with 0%nat by lia.
Qed.

(** X15. Whatever the net, a path that [determine_path] returns is a closed tour:
    there is at least one city, the path has one element more than there are
    cities, its first [N] elements are the cities, each exactly once, and
    its last element repeats the first. *)
Theorem determine_path_returns_closed_tour s g path :
  consistent s → holds s g → determine_path s = Ok path →
  (0 < num_cities s)%nat
  ∧ length path = S (num_cities s)
  ∧ take (num_cities s) path ≡ₚ cities s
  ∧ path !! 0%nat = path !! num_cities s.
Proof. apply determine_path_returns_closed_tour_aux. Qed.

Lemma determine_path_returns_closed_tour_witness :
  (0 < num_cities (two_city_tsp swapped))%nat
  ∧ length ["B"; "A"; "B"]%string = S (num_cities (two_city_tsp swapped))
  ∧ take (num_cities (two_city_tsp swapped)) ["B"; "A"; "B"]%string
    ≡ₚ cities (two_city_tsp swapped)
  ∧ ["B"; "A"; "B"]%string !! 0%nat
    = ["B"; "A"; "B"]%string !! num_cities (two_city_tsp swapped).
Proof.
  apply (determine_path_returns_closed_tour (two_city_tsp swapped) swapped).
  - split; [reflexivity|]. split; [reflexivity|]. repeat constructor; set_solver.
  - split; [reflexivity|]. split; [|reflexivity]. split; [reflexivity|].
    repeat constructor.
  - reflexivity.
Defined.

(** X16. [determine_path] returns a path exactly when there is a city, every row
    has a true cell, and every epoch is the first true epoch of some row. *)
Theorem determine_path_succeeds_iff s g :
  consistent s → holds s g →
  (∃ path, determine_path s = Ok path)
  ↔ (0 < num_cities s)%nat
    ∧ Forall (λ row, true ∈ row) (cells g)
    ∧ ∀ j, (j < num_cities s)%nat →
           ∃ i row, cells g !! i = Some row ∧ index_True row = Some j.
Proof.
  intros Hcons Hh. split.
  - intros [path Hpath].
    destruct (determine_path_inv s g path Hcons Hh Hpath)
      as (ced & p & first & Hced & Hp & Hfirst & ->).
    pose proof (city_epochs_rows s g ced Hcons Hh Hced) as Hall.
    destruct (city_epochs_Ok s g Hcons Hh Hall) as (ced' & Hced' & Hspec).
    assert (ced' = ced) as -> by congruence.
    destruct (invert_spec ced) as [Hinv1 _].
    pose proof (path_lookup _ _ _ Hp) as [Hlen Hlook].
    pose proof (lookup_lt_Some _ _ _ Hfirst) as Hpos.
    split; [lia|]. split; [done|]. intros j Hj.
    destruct (Hlook j Hj) as (c & _ & Hc).
    apply Hinv1, Hspec in Hc as (i & row & _ & Hrow & He). eauto.
  - intros (Hn & Hall & Hcover).
    destruct (city_epochs_Ok s g Hcons Hh Hall) as (ced & Hced & Hspec).
    destruct (invert_spec ced) as [_ Hinv2].
    destruct (forM_total (λ i, invert ced !! i ?! KeyError) (seq 0 (num_cities s)))
      as [p Hp].
    { intros j Hj%elem_of_seq.
      destruct (Hcover j) as (i & row & Hrow & Hrj); [lia|].
      destruct (index_city_map_row s g i row Hcons Hh Hrow) as (c & _ & Hc).
      destruct (Hinv2 c j) as [c' Hc']; [apply Hspec; eauto|].
      rewrite Hc'. simpl. eauto. }
    pose proof (path_lookup _ _ _ Hp) as [Hlen Hlook].
    destruct (Hlook 0%nat Hn) as (first & Hfirst & _).
    exists (p ++ [first]).
    unfold determine_path, deref. destruct Hh as (Hg & _). rewrite Hg. simpl.
    rewrite Hced. simpl. rewrite Hp. simpl. by rewrite Hfirst.
Qed.

Lemma determine_path_succeeds_iff_witness :
  (∃ path, determine_path (two_city_tsp swapped) = Ok path)
  ↔ (0 < num_cities (two_city_tsp swapped))%nat
    ∧ Forall (λ row, true ∈ row) (cells swapped)
    ∧ ∀ j, (j < num_cities (two_city_tsp swapped))%nat →
           ∃ i row, cells swapped !! i = Some row ∧ index_True row = Some j.
Proof.
  apply (determine_path_succeeds_iff (two_city_tsp swapped) swapped).
  - split; [reflexivity|]. split; [reflexivity|]. repeat constructor; set_solver.
  - split; [reflexivity|]. split; [|reflexivity]. split; [reflexivity|].
    repeat constructor.
Defined.

(** ** The length of the extracted path *)

Lemma one_city_tsp_init : __init__ 2 1 one_city all_on = Ok one_city_tsp.
Proof. vm_compute. reflexivity. Qed.

Lemma lookup_weight_entry s i j a b v :
  consistent s → cities s !! i = Some a → cities s !! j = Some b →
  lookup_weight s i j = Ok v → entry (distances s) a b = Some v.
Proof.
  intros (_ & Hmap & _) Ha Hb. unfold lookup_weight, entry.
  rewrite Hmap, !lookup_map_seq_0, Ha, Hb. simpl.
  destruct (distances s !! a) as [row|]; simpl; [|done].
  destruct (row !! b); simpl; congruence.
Qed.

(** X17. With two or more cities and a complete table, the length of a path
    that [determine_path] returned is computed without a lookup error:
    every leg, the closing one included, joins two different cities. *)
Theorem calculate_path_length_of_tour s g path :
  consistent s → holds s g → complete s → (2 ≤ num_cities s)%nat →
  determine_path s = Ok path →
  ∃ len, calculate_path_length s path = Ok len.
Proof.
  intros Hcons Hh Hc Hn Hpath.
  destruct (determine_path_inv s g path Hcons Hh Hpath)
    as (ced & p & first & Hced & Hp & Hfirst & ->).
  pose proof (city_epochs_rows s g ced Hcons Hh Hced) as Hall.
  destruct (city_epochs_Ok s g Hcons Hh Hall) as (ced' & Hced' & Hspec).
  assert (ced' = ced) as -> by congruence.
  destruct (extracted_cities_Permutation s g ced p Hcons Hh Hspec Hp)
    as (Hlen & Hnd & Hperm).
  unfold calculate_path_length.
  destruct (forM_total
    (λ i, a ← (p ++ [first]) !! i ?! IndexError;
          row ← distances s !! a ?! KeyError;
          b ← (p ++ [first]) !! S i ?! IndexError;
          row !! b ?! KeyError)
    (seq 0 (length (p ++ [first]) - 1))) as [ds Hds]; [|rewrite Hds; simpl; eauto].
  intros i Hi%elem_of_seq. rewrite length_app in Hi. simpl in Hi.
  destruct (lookup_lt_is_Some_2 p i) as [a Ha]; [lia|].
  assert (∃ k b, (p ++ [first]) !! S i = Some b ∧ p !! k = Some b ∧ k ≠ i)
    as (k & b & Hb & Hk & Hki).
  { destruct (decide (S i < length p)%nat) as [Hlt|Hge].
    - destruct (lookup_lt_is_Some_2 p (S i) Hlt) as [b Hb].
      exists (S i), b. rewrite lookup_app_l by done. split; [done|]. split; [done|lia].
    - exists 0%nat, first. split; [|split; [done|lia]].
      rewrite lookup_app_r by lia. by replace (S i - length p)%nat with 0%nat by lia. }
  assert (a ≠ b) as Hab.
  { intros ->. apply Hki. by eapply NoDup_lookup. }
  assert (a ∈ cities s) as (ia & Hia)%list_elem_of_lookup
    by (rewrite <-Hperm; by eapply list_elem_of_lookup_2).
  assert (b ∈ cities s) as (ib & Hib)%list_elem_of_lookup
    by (rewrite <-Hperm; by eapply list_elem_of_lookup_2).
  destruct Hcons as (Hnc & Hmap & Hndc).
  destruct (complete_lookup s ia ib Hc) as [v Hv].
  { apply lookup_lt_Some in Hia. lia. }
  { apply lookup_lt_Some in Hib. lia. }
  { intros ->. congruence. }
  apply (lookup_weight_entry s ia ib a b v) in Hv; [|done..].
  exists v. rewrite (lookup_app_l p [first] i) by lia. rewrite Ha, Hb. simpl.
  unfold entry in Hv. destruct (distances s !! a) as [row|]; [|done].
  simpl in *. by rewrite Hv.
Qed.

Lemma calculate_path_length_of_tour_witness :
  ∃ len, calculate_path_length (two_city_tsp swapped) ["B"; "A"; "B"]%string = Ok len.
Proof.
  apply (calculate_path_length_of_tour (two_city_tsp swapped) swapped).
  - split; [reflexivity|]. split; [reflexivity|]. repeat constructor; set_solver.
  - split; [reflexivity|]. split; [|reflexivity]. split; [reflexivity|].
    repeat constructor.
  - reflexivity.
  - simpl. lia.
  - reflexivity.
Defined.

(** X18. With a single city the extracted path is that city twice, and its
    length is the distance from the city to itself: a lookup error unless
    the table holds that distance. *)
Theorem calculate_path_length_single_city s g path :
  consistent s → holds s g → num_cities s = 1%nat →
  determine_path s = Ok path →
  ∃ c, cities s = [c] ∧ path = [c; c]
       ∧ calculate_path_length s path = entry (distances s) c c ?! KeyError.
Proof.
  intros Hcons Hh Hone Hpath.
  destruct (determine_path_returns_closed_tour_aux s g path Hcons Hh Hpath)
    as (_ & Hlen & Hperm & Hclosed).
  rewrite Hone in Hlen, Hperm, Hclosed.
  destruct path as [|c [|c' [|c'' path]]]; try done.
  simpl in Hperm, Hclosed. inversion Hclosed; subst c'.
  symmetry in Hperm. apply Permutation_singleton_r in Hperm.
  exists c. split; [done|]. split; [done|].
  unfold calculate_path_length, entry. simpl.
  destruct (distances s !! c) as [row|]; simpl; [|done].
  destruct (row !! c); simpl; [|done]. unfold Zsum. simpl. f_equal. lia.
Qed.

Lemma calculate_path_length_single_city_witness :
  ∃ c, cities one_city_tsp = [c] ∧ ["A"; "A"]%string = [c; c]
       ∧ calculate_path_length one_city_tsp ["A"; "A"]%string
         = entry (distances one_city_tsp) c c ?! KeyError.
Proof.
  apply (calculate_path_length_single_city one_city_tsp (mkNet 1 [[true]])).
  - split; [reflexivity|]. split; [reflexivity|]. repeat constructor; set_solver.
  - split; [reflexivity|]. split; [|reflexivity]. split; [reflexivity|].
    repeat constructor.
  - reflexivity.
  - reflexivity.
Defined.

(** ** One iteration, further *)

Lemma flip_keeps_square g i j g1 :
  flip g i j = Ok g1 → square g → square g1 ∧ dim g1 = dim g.
Proof.
  unfold flip. intros H [Hlen Hrows].
  destruct (cells g !! i) as [row|] eqn:Hrow; [|done]. simpl in H.
  destruct (row !! j) as [b|] eqn:Hb; [|done]. simpl in H.
  inversion H; subst; clear H. split; [|done]. split; simpl.
  - by rewrite length_insert.
  - apply Forall_insert; [done|]. rewrite length_insert.
    eapply Forall_forall in Hrows; [exact Hrows|]. by eapply list_elem_of_lookup_2.
Qed.

Lemma same_model_refl s : same_model s s.
Proof. by repeat split. Qed.

Lemma same_model_trans s1 s2 s3 :
  same_model s1 s2 → same_model s2 s3 → same_model s1 s3.
Proof.
  intros (? & ? & ? & ? & ? & ?) (? & ? & ? & ? & ? & ?).
  repeat split; congruence.
Qed.

Lemma concensus_of_same_model s s' g :
  same_model s s' → concensus_of s' g = concensus_of s g.
Proof.
  destruct s, s'. intros (? & ? & ? & ? & ? & ?). simpl in *. by subst.
Qed.

Lemma consistent_same_model s s' : same_model s s' → consistent s → consistent s'.
Proof.
  intros (_ & Hc & Hn & Hm & _) (? & ? & ?). unfold consistent.
  rewrite Hc, Hn, Hm. done.
Qed.

(** What a completed iteration did, whatever the draw. *)
Lemma anneal_body_inv decay u (acc : bool) s temp minc s' temp' minc' :
  anneal_body decay (u, acc) (s, temp, minc) = Ok (s', temp', minc') →
  ∃ g i j g1 c,
    store s !! net s = Some g
    ∧ pick_random_net_indices s u = Ok (i, j)
    ∧ flip g i j = Ok g1
    ∧ concensus_of s g1 = Ok c
    ∧ temp' = (temp * decay)%float
    ∧ (s', minc')
      = (let s3 := if acc
                   then set_concensus (set_store s (<[net s := g1]> (store s))) c
                   else s in
         let g3 := if acc then g1 else g in
         if bool_decide (concensus s3 < minc)
         then (set_min_net (set_store s3 (store s3 ++ [g3])) (length (store s3)),
               concensus s3)
         else (s3, minc)).
Proof.
  intros Hrun. unfold anneal_body in Hrun. cbn [fst snd] in Hrun.
  apply bind_Ok_inv in Hrun as ([i j] & Hpick & Hrun).
  apply bind_Ok_inv in Hrun as (s1 & Hflip1 & Hrun).
  apply net_flip_inv in Hflip1 as (g & g1 & Hg & Hflip & ->).
  apply bind_Ok_inv in Hrun as (s2 & Hcalc & Hrun).
  apply calculate_concensus_inv in Hcalc as (g1' & c & Hg1' & Hc & ->).
  assert (net s < length (store s))%nat as Hlt by (by eapply lookup_lt_Some).
  simpl in Hg1'. rewrite list_lookup_insert_eq in Hg1' by done.
  inversion Hg1'; subst g1'; clear Hg1'.
  change (concensus_of (set_store s (<[net s:=g1]> (store s))) g1)
    with (concensus_of s g1) in Hc.
  apply bind_Ok_inv in Hrun as (accepted & Hacc & Hrun).
  unfold accept_change in Hacc.
  destruct (PrimFloat.eqb temp 0); [done|]. inversion Hacc; subst accepted; clear Hacc.
  exists g, i, j, g1, c. do 4 (split; [done|]).
  destruct acc; cbn [negb] in Hrun.
  - rewrite bind_Ok in Hrun. cbv zeta.
    case_bool_decide as Hlow.
    + unfold snapshot, deref in Hrun. simpl in Hrun.
      rewrite list_lookup_insert_eq in Hrun by done. simpl in Hrun.
      by inversion Hrun.
    + by inversion Hrun.
  - apply bind_Ok_inv in Hrun as (s3 & Hflip2 & Hrun).
    apply net_flip_inv in Hflip2 as (g1'' & g' & Hg1 & Hflip' & ->).
    simpl in Hg1. rewrite list_lookup_insert_eq in Hg1 by done.
    inversion Hg1; subst g1''; clear Hg1.
    rewrite (flip_twice _ _ _ _ Hflip) in Hflip'.
    inversion Hflip'; subst g'; clear Hflip'.
    simpl in Hrun. rewrite list_insert_insert_eq in Hrun.
    rewrite (list_insert_id (store s) (net s) g Hg) in Hrun.
    assert (set_store (set_concensus
              (set_concensus (set_store s (<[net s:=g1]> (store s))) c)
              (concensus s)) (store s) = s) as Hs by (by destruct s).
    rewrite Hs in Hrun. cbv zeta.
    case_bool_decide as Hlow.
    + unfold snapshot, deref in Hrun. rewrite Hg in Hrun. simpl in Hrun.
      by inversion Hrun.
    + by inversion Hrun.
Qed.

(** X19. A completed iteration, accepted or rejected, leaves the cities, the
    table and the parameters as they were, keeps [self.net] on the same
    object, which is still a square net over the cities, multiplies the
    temperature by the decay rate, and makes the minimum the smaller of the
    old minimum and the stored consensus. After an accepted flip the stored
    consensus is the consensus of the live net; after a rejected one it is
    so if it was before. *)
Theorem anneal_body_keeps_solver decay dr s temp minc s' temp' minc' :
  anneal_body decay dr (s, temp, minc) = Ok (s', temp', minc') →
  same_model s s'
  ∧ net s' = net s
  ∧ temp' = (temp * decay)%float
  ∧ minc' = Z.min minc (concensus s')
  ∧ (∀ g, holds s g →
          ∃ g', holds s' g'
                ∧ (dr.2 = true ∨ concensus_of s g = Ok (concensus s) →
                   concensus_of s' g' = Ok (concensus s'))).
Proof.
  destruct dr as [u acc]. intros Hrun.
  apply anneal_body_inv in Hrun as (g & i & j & g1 & c & Hg & _ & Hflip & Hc & -> & Hs').
  assert (net s < length (store s))%nat as Hlt by (by eapply lookup_lt_Some).
  cbv zeta in Hs'.
  destruct acc; case_bool_decide as Hlow; inversion Hs'; subst; clear Hs';
    simpl in *.
  - split; [by repeat split|]. do 2 (split; [done|]). split; [lia|].
    intros g0 (Hg0 & Hsq & Hdim). assert (g0 = g) as -> by congruence.
    destruct (flip_keeps_square g i j g1 Hflip Hsq) as [Hsq1 Hdim1].
    exists g1. split; [|done]. split; [|split; [done|exact (eq_trans Hdim1 Hdim)]]. simpl.
    rewrite lookup_app_l by (by rewrite length_insert).
    by rewrite list_lookup_insert_eq.
  - split; [by repeat split|]. do 2 (split; [done|]). split; [lia|].
    intros g0 (Hg0 & Hsq & Hdim). assert (g0 = g) as -> by congruence.
    destruct (flip_keeps_square g i j g1 Hflip Hsq) as [Hsq1 Hdim1].
    exists g1. split; [|done]. split; [|split; [done|exact (eq_trans Hdim1 Hdim)]]. simpl.
    by rewrite list_lookup_insert_eq.
  - split; [by repeat split|]. do 2 (split; [done|]). split; [lia|].
    intros g0 (Hg0 & Hsq & Hdim). assert (g0 = g) as -> by congruence.
    exists g. split; [|by intros [?|?]]. split; [|done]. simpl.
    by rewrite lookup_app_l.
  - split; [by repeat split|]. do 2 (split; [done|]). split; [lia|].
    intros g0 (Hg0 & Hsq & Hdim). assert (g0 = g) as -> by congruence.
    exists g. split; [done|]. by intros [?|?].
Qed.

Lemma anneal_body_keeps_solver_witness :
  ∃ s' temp' minc',
    anneal_body 0.95 (0%nat, true) (two_city_tsp swapped, 100%float, 0)
    = Ok (s', temp', minc')
    ∧ same_model (two_city_tsp swapped) s'
    ∧ net s' = net (two_city_tsp swapped)
    ∧ temp' = (100 * 0.95)%float
    ∧ minc' = Z.min 0 (concensus s').
Proof.
  destruct (anneal_body 0.95 (0%nat, true) (two_city_tsp swapped, 100%float, 0))
    as [[[s' temp'] minc']|e] eqn:Hrun; [|by vm_compute in Hrun].
  exists s', temp', minc'. split; [done|].
  destruct (anneal_body_keeps_solver 0.95 (0%nat, true) (two_city_tsp swapped)
              100 0 s' temp' minc' Hrun) as (H1 & H2 & H3 & H4 & _).
  done.
Defined.

(** X20. The best net within an iteration. Either the iteration found no new
    minimum: then [self.min_net] stays on the same object, whose cells the
    flip does not touch provided it is not the live net itself. Or the
    stored consensus went below the minimum: then [self.min_net] is a new
    object, different from the live net and with the same cells. *)
Theorem anneal_body_best_net decay dr s temp minc s' temp' minc' :
  anneal_body decay dr (s, temp, minc) = Ok (s', temp', minc') →
  (minc' = minc ∧ minc ≤ concensus s' ∧ min_net s' = min_net s
   ∧ (min_net s ≠ net s → store s' !! min_net s' = store s !! min_net s))
  ∨ (minc' = concensus s' ∧ concensus s' < minc
     ∧ min_net s' = length (store s) ∧ min_net s' ≠ net s'
     ∧ store s' !! min_net s' = store s' !! net s').
Proof.
  destruct dr as [u acc]. intros Hrun.
  apply anneal_body_inv in Hrun as (g & i & j & g1 & c & Hg & _ & Hflip & Hc & -> & Hs').
  assert (net s < length (store s))%nat as Hlt by (by eapply lookup_lt_Some).
  cbv zeta in Hs'.
  destruct acc; case_bool_decide as Hlow; inversion Hs'; subst; clear Hs';
    simpl in *.
  - right. simpl in Hlow. rewrite length_insert.
    do 3 (split; [done|]). split; [lia|].
    rewrite lookup_app_r by (by rewrite length_insert).
    rewrite length_insert, Nat.sub_diag.
    rewrite lookup_app_l by (by rewrite length_insert).
    by rewrite list_lookup_insert_eq.
  - left. simpl in Hlow. split; [done|]. split; [lia|]. split; [done|].
    intros Hne. by rewrite list_lookup_insert_ne.
  - right. do 3 (split; [done|]). split; [lia|].
    rewrite lookup_app_r by done. rewrite Nat.sub_diag.
    by rewrite lookup_app_l.
  - left. split; [done|]. split; [lia|]. done.
Qed.

Lemma anneal_body_best_net_witness :
  ∃ s' temp' minc',
    anneal_body 0.95 (0%nat, true)
      (two_city_tsp (Net_init 2 all_off), 100%float, 0) = Ok (s', temp', minc')
    ∧ minc' = -1 ∧ min_net s' = 1%nat ∧ net s' = 0%nat
    ∧ store s' !! min_net s' = store s' !! net s'.
Proof.
  destruct (anneal_body 0.95 (0%nat, true)
              (two_city_tsp (Net_init 2 all_off), 100%float, 0))
    as [[[s' temp'] minc']|e] eqn:Hrun; [|by vm_compute in Hrun].
  exists s', temp', minc'. split; [done|].
  destruct (anneal_body_best_net 0.95 (0%nat, true)
              (two_city_tsp (Net_init 2 all_off)) 100 0 s' temp' minc' Hrun)
    as [(Hm & Hle & _)|(Hm & Hlow & Hmin & Hne & Hcopy)].
  - exfalso. vm_compute in Hrun. inversion Hrun; subst. simpl in Hle. lia.
  - vm_compute in Hrun. inversion Hrun; subst. simpl in *. done.
Defined.

(** ** A whole pass, the retries and the script *)

(** An invariant of the iterations holds when the loop has stopped. *)
Lemma anneal_loop_invariant (I : BoltzmannTsp → Z → Prop) min_temp decay :
  (∀ s temp minc dr s' temp' minc',
     I s minc → anneal_body decay dr (s, temp, minc) = Ok (s', temp', minc') →
     I s' minc') →
  ∀ draws s temp minc n s' temp' n' rest,
    I s minc →
    anneal_loop min_temp decay draws (s, temp, minc) n
    = Some (Ok (s', temp', n', rest)) →
    ∃ minc', I s' minc'.
Proof.
  intros Hstep. induction draws as [|dr draws IH];
    intros s temp minc n s' temp' n' rest HI Hrun.
  - rewrite anneal_loop_nil in Hrun.
    destruct (PrimFloat.leb min_temp temp); [done|]. inversion Hrun; subst. eauto.
  - rewrite anneal_loop_cons in Hrun.
    destruct (PrimFloat.leb min_temp temp); [|inversion Hrun; subst; eauto].
    destruct (anneal_body decay dr (s, temp, minc)) as [[[s1 t1] m1]|e] eqn:Hbody;
      [|done].
    eapply IH; [|exact Hrun]. by eapply Hstep.
Qed.

Lemma pass_invariant_step s0 decay s temp minc dr s' temp' minc' :
  pass_invariant s0 s minc →
  anneal_body decay dr (s, temp, minc) = Ok (s', temp', minc') →
  pass_invariant s0 s' minc'.
Proof.
  intros (Hmodel & Hnet & [g Hh] & Hle & Hle0 & Hbest) Hrun.
  destruct (anneal_body_keeps_solver _ _ _ _ _ _ _ _ Hrun)
    as (Hmodel' & Hnet' & _ & Hmin & Hholds).
  destruct (Hholds g Hh) as (g' & Hh' & _).
  split; [by eapply same_model_trans|]. split; [congruence|].
  split; [eauto|]. split; [lia|]. split; [lia|].
  destruct (anneal_body_best_net _ _ _ _ _ _ _ _ Hrun)
    as [(-> & _ & Hsame & Hkept)|(-> & Hlow & Hnew & Hne & Hcopy)].
  - destruct Hbest as [Halias|(Hne & m & Hm & Hsq & Hdim & Hcm & Hlt)].
    + left. congruence.
    + right. split; [congruence|]. exists m.
      rewrite Hkept by congruence. done.
  - right. split; [congruence|]. exists g'.
    destruct Hh' as (Hg' & Hsq' & Hdim').
    pose proof Hmodel as (_ & _ & Hn & _).
    pose proof Hmodel' as (_ & _ & Hn' & _).
    split; [congruence|]. split; [done|]. split; [congruence|].
    split; [|lia].
    destruct dr as [u acc].
    apply anneal_body_inv in Hrun
      as (g0 & i & j & g1 & c & Hg0 & _ & Hflip & Hc & _ & Hs').
    cbv zeta in Hs'. destruct acc.
    + assert (net s < length (store s))%nat as Hlt' by (by eapply lookup_lt_Some).
      case_bool_decide; inversion Hs'; subst; clear Hs'; simpl in *.
      * rewrite lookup_app_l in Hg' by (by rewrite length_insert).
        rewrite list_lookup_insert_eq in Hg' by done.
        inversion Hg'; subst g'.
        rewrite (concensus_of_same_model s0 s) in Hc by done. done.
      * lia.
    + case_bool_decide; inversion Hs'; subst; clear Hs'; simpl in *; lia.
Qed.

Lemma pass_returns_best_net_aux s g temp min_temp decay draws s' rest :
  holds s g → min_net s = net s →
  __find_optimal_path s temp min_temp decay draws = Some (Ok (s', rest)) →
  same_model s s'
  ∧ net s' = min_net s'
  ∧ ∃ g', holds s' g'
          ∧ (net s' = net s
             ∨ ∃ e, concensus_of s' g' = Ok e
                    ∧ e < concensus s ∧ e ≤ concensus s').
Proof.
  intros Hh Halias Hrun. unfold __find_optimal_path in Hrun.
  destruct (anneal_loop min_temp decay draws (s, temp, concensus s) 0)
    as [[[[[s1 t1] n1] r1]|e]|] eqn:Hloop; [|done..].
  inversion Hrun; subst; clear Hrun.
  destruct (anneal_loop_invariant (pass_invariant s) min_temp decay
              (pass_invariant_step s decay) draws s temp (concensus s) 0
              s1 t1 n1 rest)
    as (minc & Hmodel & Hnet & [g1 Hh1] & Hle & Hle0 & Hbest); [|done|].
  { split; [apply same_model_refl|]. split; [done|]. split; [eauto|].
    split; [lia|]. split; [lia|]. by left. }
  split; [done|]. split; [done|].
  destruct Hbest as [Hsame|(Hne & m & Hm & Hsq & Hdim & Hcm & Hlt)].
  - exists g1. split; [|left; simpl; congruence].
    destruct Hh1 as (Hg1 & Hsq1 & Hdim1). split; [|done]. simpl. congruence.
  - exists m. split.
    + split; [done|]. split; [done|]. simpl.
      destruct Hmodel as (_ & _ & Hn & _). congruence.
    + right. exists minc. split; [|simpl; lia].
      by rewrite (concensus_of_same_model s (set_net s1 (min_net s1))).
Qed.




(** A pass keeps what the next pass and the path extraction rely on. *)
Lemma pass_keeps_solver s g temp min_temp decay draws s' rest :
  holds s g → min_net s = net s →
  __find_optimal_path s temp min_temp decay draws = Some (Ok (s', rest)) →
  same_model s s' ∧ min_net s' = net s' ∧ ∃ g', holds s' g'.
Proof.
  intros Hh Halias Hrun.
  destruct (pass_returns_best_net_aux _ _ _ _ _ _ _ _ Hh Halias Hrun)
    as (Hmodel & Hnet & g' & Hh' & _).
  eauto.
Qed.

Lemma retry_keeps_solver temp min_temp decay k :
  ∀ s g draws count s' count',
    holds s g → min_net s = net s →
    retry s temp min_temp decay draws count k = Some (Ok (s', count')) →
    same_model s s' ∧ min_net s' = net s' ∧ ∃ g', holds s' g'.
Proof.
  induction k as [|k IH]; intros s g draws count s' count' Hh Halias Hrun;
    simpl in Hrun.
  - destruct (is_valid_path s) as [[|]|e]; [| |done];
      inversion Hrun; subst; (split; [apply same_model_refl|eauto]).
  - destruct (is_valid_path s) as [[|]|e]; [| |done].
    + inversion Hrun; subst. split; [apply same_model_refl|eauto].
    + destruct (__find_optimal_path s temp min_temp decay draws)
        as [[[s1 rest]|e]|] eqn:Hpass; [|done..].
      destruct (pass_keeps_solver _ _ _ _ _ _ _ _ Hh Halias Hpass)
        as (Hmodel1 & Halias1 & g1 & Hh1).
      destruct (IH _ _ _ _ _ _ Hh1 Halias1 Hrun) as (Hmodel' & Halias' & Hg').
      split; [by eapply same_model_trans|done].
Qed.



(** X23. Whatever the search did, a path that the script prints is a closed
    tour over the cities of the file: the assertion held, the file names at
    least one city, the path has one element more than the file has
    cities, its first elements are the keys of the file, each exactly
    once, and its last element repeats the first. The validity check of
    the retry loop is not needed for this. *)
Theorem main_returns_closed_tour a raw coin draws path len :
  main a raw coin draws = Some (Ok (path, len)) →
  a_bonus a < a_penalty a
  ∧ (0 < size raw)%nat
  ∧ length path = S (size raw)
  ∧ take (size raw) path ≡ₚ keys raw
  ∧ path !! 0%nat = path !! size raw.
Proof.
  unfold main. intros Hrun.
  case_bool_decide as Hassert; [|done]. split; [done|].
  destruct (__init__ (a_penalty a) (a_bonus a) raw coin) as [tsp|e] eqn:Hinit;
    [|done].
  destruct (import_distances raw) as [imp|e] eqn:Himp;
    [|by rewrite (init_import_Raise _ _ _ _ _ Himp) in Hinit].
  destruct (init_Ok (a_penalty a) (a_bonus a) raw coin imp Himp)
    as (s0 & Hs0 & Hcons & _ & Hh & Halias & _ & _ & _ & Hcities & _).
  assert (s0 = tsp) as -> by congruence.
  destruct (find_optimal_path tsp (a_temp a) (a_mintemp a) (a_decay a) 10 draws)
    as [[s2|e]|] eqn:Hfind; [|done..].
  unfold find_optimal_path in Hfind.
  destruct (__find_optimal_path tsp (a_temp a) (a_mintemp a) (a_decay a) draws)
    as [[[s1 rest]|e]|] eqn:Hpass; [|done..].
  destruct (retry s1 (a_temp a) (a_mintemp a) (a_decay a) rest 1 10)
    as [[[s2' count]|e]|] eqn:Hretry; [|done..].
  inversion Hfind; subst s2'; clear Hfind.
  destruct (pass_keeps_solver _ _ _ _ _ _ _ _ Hh Halias Hpass)
    as (Hmodel1 & Halias1 & g1 & Hh1).
  destruct (retry_keeps_solver _ _ _ _ _ _ _ _ _ _ Hh1 Halias1 Hretry)
    as (Hmodel2 & _ & g2 & Hh2).
  pose proof (same_model_trans _ _ _ Hmodel1 Hmodel2) as Hmodel.
  pose proof (consistent_same_model _ _ Hmodel Hcons) as Hcons2.
  inversion Hrun as [Hout]; clear Hrun.
  destruct (determine_path s2) as [p|e] eqn:Hpath; [|done].
  rewrite bind_Ok in Hout.
  destruct (calculate_path_length s2 p) as [l|e]; [|done].
  simpl in Hout. inversion Hout; subst p l; clear Hout.
  destruct (determine_path_returns_closed_tour_aux s2 g2 path Hcons2 Hh2 Hpath)
    as (Hpos & Hlen & Hperm & Hclosed).
  apply import_distances_Ok in Himp as (_ & _ & Hkeys & _).
  destruct Hcons2 as (Hn & _).
  destruct Hmodel as (_ & Hc & _).
  assert (num_cities s2 = size raw) as Hsize.
  { rewrite Hn, Hc, Hcities, Hkeys. unfold keys.
    by rewrite length_fmap, length_map_to_list. }
  rewrite Hsize in *. rewrite Hc, Hcities, Hkeys in Hperm. done.
Qed.

Lemma main_returns_closed_tour_witness :
  ∃ path len,
    main (mkArgs 3 1 100 100 0.95) two_cities diagonal [(0%nat, false)]
    = Some (Ok (path, len))
    ∧ path = ["A"; "B"; "A"]%string ∧ len = 10
    ∧ take (size two_cities) path ≡ₚ keys two_cities.
Proof.
  exists ["A"; "B"; "A"]%string, 10.
  assert (main (mkArgs 3 1 100 100 0.95) two_cities diagonal [(0%nat, false)]
          = Some (Ok (["A"; "B"; "A"]%string, 10))) as Hrun by (by vm_compute).
  split; [done|]. split; [done|]. split; [done|].
  destruct (main_returns_closed_tour _ _ _ _ _ _ Hrun) as (_ & _ & _ & Hperm & _).
  exact Hperm.
Defined.
